(** * 7ds_midi: MIDI event stream to Grand Cross jukebox MML

    A shallow embedding of [7ds_midi.py].  Python integers are [Z], Python
    floats are the IEEE 754 binary64 numbers of [PrimFloat], strings are
    [string]; the dictionary of sounding notes is a [gmap] from pitch
    number to a stack; exceptions are an explicit [result] monad.  Each
    class of the script is a module of the same name. *)

From Stdlib Require Import ZArith List String Ascii Lia Bool.
From Stdlib Require Import DecimalString.
From Stdlib Require Import Floats.
From Equations Require Import Equations.
From stdpp Require Import base option list gmap strings.
Import ListNotations.

#[local] Open Scope string_scope.
#[local] Open Scope list_scope.
#[local] Open Scope Z_scope.

(** ** The fragment of the Python runtime the script relies on *)

Module Py.

(** The built-in exceptions the script can raise. *)
Inductive exn : Set :=
| AssertionError
| KeyError
| IndexError
| ZeroDivisionError
| OverflowError
| ValueError.

(** [type(e).__name__] *)
Definition exn_name (e : exn) : string :=
  match e with
  | AssertionError => "AssertionError"
  | KeyError => "KeyError"
  | IndexError => "IndexError"
  | ZeroDivisionError => "ZeroDivisionError"
  | OverflowError => "OverflowError"
  | ValueError => "ValueError"
  end.

(** A computation either returns a value or raises. *)
Inductive result (A : Type) : Type :=
| Ok (a : A)
| Raise (e : exn).
#[global] Arguments Ok {A} a.
#[global] Arguments Raise {A} e.

#[global] Instance result_ret : MRet result := fun A a => Ok a.
#[global] Instance result_bind : MBind result := fun A B k r =>
  match r with
  | Ok a => k a
  | Raise e => Raise e
  end.

(** [str(n)] for an integer: decimal digits, [-] in front when negative. *)
Definition str (n : Z) : string := NilZero.string_of_int (Z.to_int n).

(** [sep.join(parts)] *)
Fixpoint join (sep : string) (parts : list string) : string :=
  match parts with
  | [] => ""
  | [s] => s
  | s :: rest => s +:+ sep +:+ join sep rest
  end.

(** An integer operand of a float operation is converted first: to the
    nearest double, ties to even; [OverflowError] beyond the range. *)
Definition float_of_int (n : Z) : result float :=
  let x := SF2Prim (binary_normalize prec emax n 0 false) in
  if PrimFloat.is_infinity x then Raise OverflowError else Ok x.

(** [x / y] on floats *)
Definition truediv (x y : float) : result float :=
  if (y =? 0)%float then Raise ZeroDivisionError else Ok (x / y)%float.

(** Nearest integer to [m * 2^e], ties to the even one. *)
Definition round_half_even (m e : Z) : Z :=
  if 0 <=? e then m * 2 ^ e
  else
    let unit := 2 ^ (- e) in
    let q := m / unit in
    let r := m mod unit in
    if 2 * r <? unit then q
    else if unit <? 2 * r then q + 1
    else if Z.even q then q else q + 1.

(** [round(x)] with one argument: an integer, from a float. *)
Definition round (x : float) : result Z :=
  match Prim2SF x with
  | S754_nan => Raise ValueError
  | S754_infinity _ => Raise OverflowError
  | S754_zero _ => Ok 0
  | S754_finite s m e =>
      let n := round_half_even (Z.pos m) e in
      Ok (if s then - n else n)
  end.

(** [stack.pop()] *)
Fixpoint pop {A : Type} (stack : list A) : result (list A * A) :=
  match stack with
  | [] => Raise IndexError
  | x :: stack' =>
      match stack' with
      | [] => Ok ([], x)
      | _ :: _ => '(rest, y) ← pop stack'; Ok (x :: rest, y)
      end
  end.

End Py.
Import Py.

(** ** mido messages, after [merge_tracks] *)

Inductive msg_type : Set := note_on | note_off | other.

#[global] Instance msg_type_eq_dec : EqDecision msg_type.
Proof. solve_decision. Defined.

(** [msg_note] and [msg_velocity] are read for the two note types only. *)
Record Message : Set := {
  msg_type_of : msg_type;
  msg_note : Z;
  msg_velocity : Z;
  msg_time : Z
}.

(** ** class Note *)

Module Note.

Definition _PITCHES : list string :=
  ["C"; "C#"; "D"; "D#"; "E"; "F"; "F#"; "G"; "G#"; "A"; "A#"; "B"].

(** [oid] is the identity of the Python object: the position in the track
    of the message whose processing constructed it.  No operation of the
    script reads it. *)
Record t : Set := {
  oid : nat;
  note_value : Z;
  pitch : string;
  octave : Z;
  start : Z;
  duration : Z;
  velocity : Z
}.

(** [msg.velocity * (16/128)], rounded *)
Definition scale_velocity (v : Z) : result Z :=
  x ← float_of_int v;
  round (x * (16 / 128))%float.

Definition init (ident : nat) (msg : Message) (start duration : Z)
    (disable_vel : bool) : result t :=
  let note_value := msg_note msg in
  let pitch := nth (Z.to_nat (msg_note msg mod 12)) _PITCHES "" in
  let octave := msg_note msg / 12 - 1 in
  velocity ← (if disable_vel then Ok 12
              else scale_velocity (msg_velocity msg));
  Ok {| oid := ident; note_value := note_value; pitch := pitch;
        octave := octave; start := start; duration := duration;
        velocity := velocity |}.

(** The [OrderedDict] built by [_get_length_str], in insertion order. *)
Definition d : list (Z * string) :=
  [(1, "16"); (2, "8"); (3, "8."); (4, ""); (6, "4."); (8, "2");
   (12, "2."); (16, "1"); (24, "1.")].

(** [d.get(key)] *)
Fixpoint get (tbl : list (Z * string)) (key : Z) : option string :=
  match tbl with
  | [] => None
  | (k, v) :: tbl' => if k =? key then Some v else get tbl' key
  end.

(** [d[key]], where [key] may be [None] *)
Definition getitem (tbl : list (Z * string)) (key : option Z) : result string :=
  match key with
  | None => Raise KeyError
  | Some k =>
      match get tbl k with
      | Some v => Ok v
      | None => Raise KeyError
      end
  end.

(** Truth value of [d.get(key)]: [None] and the empty string are false. *)
Definition truthy (r : option string) : bool :=
  match r with
  | Some (String _ _) => true
  | Some EmptyString | None => false
  end.

(** The loop over [reversed(d)]: the first key below [duration], or [None]. *)
Definition find_low (duration : Z) : option Z :=
  List.find (fun key => key <? duration) (rev (map fst d)).

(** A key found by [find_low] is positive and below the duration: the
    remainder is smaller than the duration, and not negative. *)
Ltac below_duration Hlow :=
  unfold find_low in Hlow; simpl in Hlow;
  repeat match type of Hlow with
         | context [if ?b then _ else _] => destruct b eqn:?
         end;
  inversion Hlow; subst; lia.

(** Keeps the equation of a test for the branch it opens. *)
Definition inspect {A : Type} (a : A) : {b : A | a = b} := exist _ a eq_refl.

(** [assert duration >= 1]; then [result = d.get(duration)]; when [result]
    is false, [low] is searched and the remainder decomposed in turn;
    otherwise [result] is returned.  The recursion is on a duration that is
    smaller by [low], which is at least 1. *)
Equations? _get_length_str (pitch : string) (duration : Z) : result string
  by wf (Z.to_nat duration) lt :=
_get_length_str pitch duration with Z_lt_dec duration 1 := {
  | left _ => Raise AssertionError
  | right _ with inspect (truthy (get d duration)) := {
    | exist _ true _ => Ok (default "" (get d duration))
    | exist _ false _ with inspect (find_low duration) := {
      | exist _ None _ => Raise KeyError
      | exist _ (Some low) Hlow =>
          head ← getitem d (Some low);
          tail ← _get_length_str pitch (duration - low);
          Ok (head +:+ "&" +:+ pitch +:+ tail) } } }.
Proof. below_duration Hlow. Qed.

Definition encode (self : t) : result string :=
  if duration self <=? 0 then Ok ""
  else
    let result := "" in
    let result :=
      if negb (velocity self =? 12) then result +:+ "V" +:+ str (velocity self)
      else result in
    let result := result +:+ "O" +:+ str (octave self) in
    let result := result +:+ pitch self in
    length ← _get_length_str (pitch self) (duration self);
    Ok (result +:+ length).

Definition end_ (self : t) : Z := start self + duration self.

(** [note.duration += delta] *)
Definition grow (delta : Z) (self : t) : t :=
  {| oid := oid self; note_value := note_value self; pitch := pitch self;
     octave := octave self; start := start self;
     duration := duration self + delta; velocity := velocity self |}.

End Note.

(** ** class Rest(Note) *)

Module Rest.

Record t : Set := {
  pitch : string;
  start : Z;
  duration : Z
}.

Definition init (start duration : Z) : t :=
  {| pitch := "R"; start := start; duration := duration |}.

Definition encode (self : t) : result string :=
  length ← Note._get_length_str (pitch self) (duration self);
  Ok (pitch self +:+ length).

Definition end_ (self : t) : Z := start self + duration self.

End Rest.

(** What a [Line] holds: notes and rests, told apart by their class. *)
Inductive entity : Set :=
| ANote (n : Note.t)
| ARest (r : Rest.t).

Definition entity_start (x : entity) : Z :=
  match x with
  | ANote n => Note.start n
  | ARest r => Rest.start r
  end.

Definition entity_end (x : entity) : Z :=
  match x with
  | ANote n => Note.end_ n
  | ARest r => Rest.end_ r
  end.

Definition entity_encode (x : entity) : result string :=
  match x with
  | ANote n => Note.encode n
  | ARest r => Rest.encode r
  end.

(** ** class Line(list) *)

Module Line.

(** [items] is the underlying list. *)
Record t : Set := {
  items : list entity;
  start : Z;
  duration : Z
}.

Definition end_ (self : t) : Z := start self + duration self.

Definition init (start : Z) : t :=
  {| items := if 0 <? start then [ARest (Rest.init 0 start)] else [];
     start := start;
     duration := 0 |}.

Definition append (self : t) (note : Note.t) : t :=
  let self :=
    if end_ self <? Note.start note then
      {| items := items self ++
                  [ARest (Rest.init (end_ self) (Note.start note - end_ self))];
         start := start self;
         duration := duration self + (Note.start note - end_ self) |}
    else self in
  {| items := items self ++ [ANote note];
     start := start self;
     duration := duration self + Note.duration note |}.

Definition encode (self : t) : result string :=
  parts ← mapM entity_encode (items self);
  Ok (join "" parts).

End Line.


(** ** class Track *)

Module Track.

Record t : Set := {
  track : list Message;
  tpb : float;
  _disable_vel : bool
}.

(** [ticks_per_beat * speed_mult]: an integer times a float. *)
Definition init (track : list Message) (ticks_per_beat : Z)
    (disable_vel : bool) (speed_mult : float) : result t :=
  x ← float_of_int ticks_per_beat;
  Ok {| track := track; tpb := (x * speed_mult)%float;
        _disable_vel := disable_vel |}.

Definition _tick_to_sixteenth (self : t) (ticks : Z) : result Z :=
  x ← float_of_int ticks;
  beats ← truediv x (tpb self);
  round (beats * 4)%float.

(** Position of the last element that satisfies [p]: the first one met
    when the list is walked in reverse. *)
Fixpoint rfind {A : Type} (p : A -> bool) (l : list A) : option nat :=
  match l with
  | [] => None
  | x :: l' =>
      match rfind p l' with
      | Some i => Some (S i)
      | None => if p x then Some O else None
      end
  end.

(** The line is returned by reference: as the list of lines, extended when
    a line was created, and the position of the line in it. *)
Definition _get_available_line (lines : list Line.t) (note : Note.t)
    : list Line.t * nat :=
  match rfind (fun line => Line.end_ line <=? Note.start note) lines with
  | Some i => (lines, i)
  | None =>
      let new_line := Line.init (Note.start note) in
      (lines ++ [new_line], List.length lines)
  end.

(** The local variables of [encode] while it loops over the track, and
    [seen], the number of messages consumed so far, from which the notes
    take their [oid]. *)
Record state : Type := {
  time : Z;
  durations : gmap Z (list Note.t);
  lines : list Line.t;
  seen : nat
}.

Definition start_state : state :=
  {| time := 0; durations := ∅; lines := []; seen := O |}.

(** One turn of the loop [for msg in self.track]: the time cursor and
    every sounding note advance by the quantized delta; a note-on with a
    velocity pushes a new note on the stack of its pitch; any other note
    message pops that stack and appends the note to the available line. *)
Definition step (self : t) (st : state) (msg : Message) : result state :=
  delta ← _tick_to_sixteenth self (msg_time msg);
  let time := time st + delta in
  let durations : gmap Z (list Note.t) :=
    (fun stack : list Note.t => Note.grow delta <$> stack) <$> durations st in
  if bool_decide (msg_type_of msg ∈ [note_on; note_off]) then
    if bool_decide (msg_type_of msg = note_on) && (0 <? msg_velocity msg) then
      let durations :=
        match durations !! msg_note msg with
        | None => <[msg_note msg := []]> durations
        | Some _ => durations
        end in
      note ← Note.init (seen st) msg time 0 (_disable_vel self);
      Ok {| time := time;
            durations :=
              alter (fun stack => stack ++ [note]) (msg_note msg) durations;
            lines := lines st;
            seen := S (seen st) |}
    else
      match durations !! msg_note msg with
      | None => Raise KeyError
      | Some stack =>
          '(stack, note) ← pop stack;
          let durations := <[msg_note msg := stack]> durations in
          let '(lines, i) := _get_available_line (lines st) note in
          Ok {| time := time; durations := durations;
                lines := alter (fun line => Line.append line note) i lines;
                seen := S (seen st) |}
      end
  else
    Ok {| time := time; durations := durations; lines := lines st;
          seen := S (seen st) |}.

Fixpoint loop (self : t) (st : state) (msgs : list Message) : result state :=
  match msgs with
  | [] => Ok st
  | msg :: msgs' => st' ← step self st msg; loop self st' msgs'
  end.

(** [','.join(line.encode() for line in lines)] *)
Definition encode_lines (lines : list Line.t) : result string :=
  parts ← mapM Line.encode lines;
  Ok (join "," parts).

Definition encode (self : t) : result string :=
  let result := "" in
  st ← loop self start_state (track self);
  joined ← encode_lines (lines st);
  Ok (result +:+ joined).

End Track.

(** ** class Midi *)

(** What [MidiFile(filename)] and [merge_tracks] hand over. *)
Record MidiFile : Set := {
  merged_tracks : list Message;
  ticks_per_beat : Z
}.

Module Midi.

Record t : Set := {
  tempo : Z;
  track : Track.t
}.

Definition init (midi : MidiFile) (tempo : Z) (disable_vel : bool)
    (speed_mult : float) : result t :=
  track ← Track.init (merged_tracks midi) (ticks_per_beat midi)
            disable_vel speed_mult;
  Ok {| tempo := tempo; track := track |}.

Definition encode (self : t) : result string :=
  let result := "7ML@" in
  let result :=
    if negb (tempo self =? 120) then result +:+ "T" +:+ str (tempo self)
    else result in
  body ← Track.encode (track self);
  Ok (result +:+ (body +:+ ";")).

(** The whole run: load, then encode. *)
Definition convert (midi : MidiFile) (tempo : Z) (disable_vel : bool)
    (speed_mult : float) : result string :=
  self ← init midi tempo disable_vel speed_mult;
  encode self.

End Midi.

(** ** The command line *)

(** [Midi(args.filepath, args.tempo or 120, args.disable_vel or False,
    args.speed_mult or 1.0)], then [midi.encode()], which is printed.  An
    option left out is [None]; 0 counts as left out. *)
Definition main (midi : MidiFile) (tempo : option Z) (disable_vel : bool)
    (speed_mult : option float) : result string :=
  let tempo :=
    match tempo with
    | Some t => if t =? 0 then 120 else t
    | None => 120
    end in
  let speed_mult :=
    match speed_mult with
    | Some x => if (x =? 0)%float then 1%float else x
    | None => 1%float
    end in
  Midi.convert midi tempo disable_vel speed_mult.

(** * Vocabulary of the statements *)

(** ** Tie chains *)

(** The table token of a key ([""] off the table). *)
Definition token (key : Z) : string := default "" (Note.get Note.d key).

(** A tie chain: the tokens of [keys], each further one joined by the tie
    separator and the pitch. *)
Fixpoint tie_chain (pitch : string) (keys : list Z) : string :=
  match keys with
  | [] => ""
  | key :: keys' =>
      match keys' with
      | [] => token key
      | _ :: _ => token key +:+ "&" +:+ pitch +:+ tie_chain pitch keys'
      end
  end.

(** The table keys [_get_length_str] settles on, in the order it does:
    its own recursion, keeping the key where it appends the token. *)
Equations? key_chain (duration : Z) : list Z by wf (Z.to_nat duration) lt :=
key_chain duration with Z_lt_dec duration 1 := {
  | left _ => []
  | right _ with Note.inspect (Note.truthy (Note.get Note.d duration)) := {
    | exist _ true _ => [duration]
    | exist _ false _ with Note.inspect (Note.find_low duration) := {
      | exist _ None _ => []
      | exist _ (Some low) Hlow => low :: key_chain (duration - low) } } }.
Proof. Note.below_duration Hlow. Qed.


(** ** One turn of the loop, case by case *)

(** The test of the inner [if], and what remains for its [else]. *)
Definition is_note_on (msg : Message) : Prop :=
  msg_type_of msg = note_on /\ 0 < msg_velocity msg.

Definition is_note_off (msg : Message) : Prop :=
  msg_type_of msg = note_off \/
  (msg_type_of msg = note_on /\ msg_velocity msg <= 0).

(** The sounding notes once each has grown by [delta]. *)
Definition grown (delta : Z) (durations : gmap Z (list Note.t))
    : gmap Z (list Note.t) :=
  (fun stack : list Note.t => Note.grow delta <$> stack) <$> durations.

(** What a successful turn does to the sounding notes and to the lines,
    the notes having grown to [durations]. *)
Inductive turn (self : Track.t) (st : Track.state) (msg : Message)
    (durations : gmap Z (list Note.t)) (st' : Track.state) : Prop :=
| turn_other :
    msg_type_of msg = other ->
    Track.durations st' = durations ->
    Track.lines st' = Track.lines st ->
    turn self st msg durations st'
| turn_on (note : Note.t) :
    is_note_on msg ->
    Note.init (Track.seen st) msg (Track.time st') 0 (Track._disable_vel self)
      = Ok note ->
    Track.durations st' =
      <[msg_note msg := default [] (durations !! msg_note msg) ++ [note]]>
        durations ->
    Track.lines st' = Track.lines st ->
    turn self st msg durations st'
| turn_off (stack : list Note.t) (note : Note.t) (lines : list Line.t)
    (i : nat) :
    is_note_off msg ->
    durations !! msg_note msg = Some (stack ++ [note]) ->
    Track.durations st' = <[msg_note msg := stack]> durations ->
    Track._get_available_line (Track.lines st) note = (lines, i) ->
    Track.lines st' = alter (fun line => Line.append line note) i lines ->
    turn self st msg durations st'.

(** ** Notes in flight, notes in lines *)

(** The note sits at height [i] of the stack of pitch [k]. *)
Definition sounding (durations : gmap Z (list Note.t)) (k : Z) (i : nat)
    (n : Note.t) : Prop :=
  exists stack, durations !! k = Some stack /\ stack !! i = Some n.

(** The note is an entry of one of the lines. *)
Definition placed (lines : list Line.t) (n : Note.t) : Prop :=
  exists line, line ∈ lines /\ ANote n ∈ Line.items line.

(** What holds of the object identities in every state of the loop: they
    come from messages already consumed, no two sounding notes share one,
    and no sounding note shares one with a note in a line. *)
Record identities (st : Track.state) : Prop := {
  ids_sounding :
    forall k i n, sounding (Track.durations st) k i n ->
      (Note.oid n < Track.seen st)%nat;
  ids_placed :
    forall n, placed (Track.lines st) n -> (Note.oid n < Track.seen st)%nat;
  ids_unique :
    forall k1 i1 n1 k2 i2 n2,
      sounding (Track.durations st) k1 i1 n1 ->
      sounding (Track.durations st) k2 i2 n2 ->
      Note.oid n1 = Note.oid n2 -> k1 = k2 /\ i1 = i2;
  ids_apart :
    forall k i n m,
      sounding (Track.durations st) k i n -> placed (Track.lines st) m ->
      Note.oid n <> Note.oid m
}.

(** At the turn of [msg], taken from [st], the note of identity [ident] is
    popped and handed to [_get_available_line]. *)
Definition hands_over (self : Track.t) (st : Track.state) (msg : Message)
    (ident : nat) : Prop :=
  exists delta stack note,
    Track._tick_to_sixteenth self (msg_time msg) = Ok delta /\
    is_note_off msg /\
    grown delta (Track.durations st) !! msg_note msg = Some (stack ++ [note]) /\
    Note.oid note = ident.

(** The message with its time kept and its type taken away. *)
Definition silence (msg : Message) : Message :=
  {| msg_type_of := other; msg_note := msg_note msg;
     msg_velocity := msg_velocity msg; msg_time := msg_time msg |}.

(** The track with the message at position [ident] silenced. *)
Definition without (ident : nat) (self : Track.t) : Track.t :=
  {| Track.track := alter silence ident (Track.track self);
     Track.tpb := Track.tpb self;
     Track._disable_vel := Track._disable_vel self |}.

(** [db] is [da] less the one sounding note of identity [ident]. *)
Definition muted (ident : nat) (da db : gmap Z (list Note.t)) : Prop :=
  exists k lo x hi,
    Note.oid x = ident /\
    da !! k = Some (lo ++ x :: hi) /\
    (forall k', k' <> k -> db !! k' = da !! k') /\
    (db !! k = Some (lo ++ hi) \/ (db !! k = None /\ lo = [] /\ hi = [])).

(** ** Lines as sequences in time *)

(** The entities follow one another without a gap, the first from [from],
    the last up to [to]. *)
Fixpoint contiguous (from : Z) (items : list entity) (to : Z) : Prop :=
  match items with
  | [] => from = to
  | x :: items' => entity_start x = from /\ contiguous (entity_end x) items' to
  end.

(** What every line of the loop satisfies, whatever the time deltas: it holds
    a note, it is contiguous up to its [end], from 0 or from its own start
    when that lies before 0, and each of its rests has a positive duration. *)
Record line_ok (line : Line.t) : Prop := {
  line_nonempty : Line.items line <> [];
  line_contiguous :
    contiguous (Z.min 0 (Line.start line)) (Line.items line) (Line.end_ line);
  line_rests : forall r, ARest r ∈ Line.items line -> 0 < Rest.duration r
}.

(** The three properties of a line in time: each entry starts where the
    one before it ends; the first entry starts at time 0; of two notes the
    earlier has ended when the later starts. *)
Definition gapless (line : Line.t) : Prop :=
  forall i x y,
    Line.items line !! i = Some x -> Line.items line !! S i = Some y ->
    entity_start y = entity_end x.

Definition from_zero (line : Line.t) : Prop :=
  exists x, Line.items line !! 0%nat = Some x /\ entity_start x = 0.

Definition overlap_free (line : Line.t) : Prop :=
  forall i j n m,
    (i < j)%nat ->
    Line.items line !! i = Some (ANote n) ->
    Line.items line !! j = Some (ANote m) ->
    Note.end_ n <= Note.start m.

(** [new] holds the lines of [old] at the same positions, each with the
    entries it had and possibly more, and possibly further lines behind. *)
Definition extends (old new : list Line.t) : Prop :=
  forall i line, old !! i = Some line ->
    exists line', new !! i = Some line' /\
                  Line.items line `prefix_of` Line.items line'.

(** ** Time that moves forward *)

(** The sign bit of a float is clear (or the float is not a number). *)
Definition unsigned (x : spec_float) : Prop :=
  match x with
  | S754_nan => True
  | S754_zero s | S754_infinity s | S754_finite s _ _ => s = false
  end.

(** No delta of the track quantizes to a negative number of sixteenths. *)
Definition never_backwards (self : Track.t) : Prop :=
  forall msg delta,
    msg ∈ Track.track self ->
    Track._tick_to_sixteenth self (msg_time msg) = Ok delta -> 0 <= delta.

(** Time only moves forward: what holds of the state when no delta of the
    track quantizes to a negative number. *)
Record forward (st : Track.state) : Prop := {
  forward_time : 0 <= Track.time st;
  forward_sounding :
    forall k i n, sounding (Track.durations st) k i n ->
      0 <= Note.start n /\ 0 <= Note.duration n;
  forward_lines :
    forall line, line ∈ Track.lines st ->
      0 <= Line.start line /\
      forall n, ANote n ∈ Line.items line -> 0 <= Note.duration n
}.

(** ** The score *)

(** The tempo tag of the score. *)
Definition tempo_tag (tempo : Z) : string :=
  if decide (tempo = 120) then "" else "T" +:+ str tempo.

(** ** The shape of a chain *)

(** No key of the list is larger than the one before it. *)
Fixpoint descending (keys : list Z) : bool :=
  match keys with
  | [] => true
  | key :: keys' =>
      match keys' with
      | [] => true
      | next :: _ => (next <=? key) && descending keys'
      end
  end.

(** What holds of the keys of a chain. *)
Record chain_shape (duration : Z) (keys : list Z) : Prop := {
  shape_keys : Forall (fun key => 1 <= key <= 24) keys;
  shape_descending : descending keys = true;
  shape_length : Z.of_nat (length keys) <= duration / 24 + 3;
  shape_last : last keys <> Some 4
}.

(** ** The history of a note *)

(** The time cursor reads [t] once the messages up to position [p] of
    [msgs] are consumed. *)
Definition cursor_after (self : Track.t) (msgs : list Message) (p : nat)
    (t : Z) : Prop :=
  exists st,
    Track.loop self Track.start_state (take (S p) msgs) = Ok st /\
    Track.time st = t.

(** The note was built from the message at the position of its identity, a
    note-on with a velocity, and starts at the cursor read after it. *)
Record opened (self : Track.t) (msgs : list Message) (n : Note.t) : Prop := {
  opened_by :
    exists msg,
      msgs !! Note.oid n = Some msg /\ is_note_on msg /\
      Note.init (Note.oid n) msg (Note.start n) (Note.duration n)
        (Track._disable_vel self) = Ok n;
  opened_at : cursor_after self msgs (Note.oid n) (Note.start n)
}.

(** A later message, a note-off of the note's number, took the note off its
    stack; the note ends at the cursor read after it. *)
Definition closed (self : Track.t) (msgs : list Message) (n : Note.t)
    : Prop :=
  exists q msg,
    (Note.oid n < q)%nat /\ msgs !! q = Some msg /\ is_note_off msg /\
    msg_note msg = Note.note_value n /\
    cursor_after self msgs q (Note.end_ n).

(** What the state remembers of the messages consumed. *)
Record history (self : Track.t) (msgs : list Message) (st : Track.state)
    : Prop := {
  history_seen : Track.seen st = length msgs;
  history_sounding :
    forall k i n, sounding (Track.durations st) k i n ->
      opened self msgs n /\ Note.note_value n = k /\
      Note.end_ n = Track.time st;
  history_order :
    forall k i j n m,
      sounding (Track.durations st) k i n ->
      sounding (Track.durations st) k j m ->
      (i < j)%nat -> (Note.oid n < Note.oid m)%nat;
  history_placed :
    forall n, placed (Track.lines st) n ->
      opened self msgs n /\ closed self msgs n
}.

(** The note built from the message at position [p], of number [k], is on
    the stack of [k] or in a line. *)
Definition kept (st : Track.state) (p : nat) (k : Z) : Prop :=
  exists n,
    Note.oid n = p /\ Note.note_value n = k /\
    ((exists i, sounding (Track.durations st) k i n) \/
     placed (Track.lines st) n).

(** ** Notes and rests of a line *)

Definition entity_note (x : entity) : option Note.t :=
  match x with
  | ANote n => Some n
  | ARest _ => None
  end.

(** The notes of a line, in order, and those of all lines. *)
Definition notes (line : Line.t) : list Note.t :=
  omap entity_note (Line.items line).

Definition all_notes (lines : list Line.t) : list Note.t :=
  concat (notes <$> lines).

(** The message takes the [else] branch of the inner [if]. *)
Definition closing (msg : Message) : bool :=
  bool_decide (msg_type_of msg ∈ [note_on; note_off])
  && negb (bool_decide (msg_type_of msg = note_on) && (0 <? msg_velocity msg)).

(** Each rest stands directly before a note. *)
Definition rests_lead (items : list entity) : Prop :=
  forall i r, items !! i = Some (ARest r) ->
    exists n, items !! S i = Some (ANote n).

(** ** Velocities *)

(** The two messages differ at most in their velocity, and two note-ons
    not in whether they have one. *)
Definition same_but_velocity (a b : Message) : Prop :=
  msg_type_of a = msg_type_of b /\ msg_note a = msg_note b /\
  msg_time a = msg_time b /\
  (msg_type_of a = note_on ->
   (0 <? msg_velocity a) = (0 <? msg_velocity b)).

(** ** Tracks to run *)

(** A message, field by field. *)
Definition message (ty : msg_type) (note velocity ticks : Z) : Message :=
  {| msg_type_of := ty; msg_note := note; msg_velocity := velocity;
     msg_time := ticks |}.

(** Scenario A: one note, pitch 60, velocity 100, on at tick 0, off one beat
    later, 480 ticks to the beat. *)
Definition scenario_A : MidiFile :=
  {| merged_tracks := [message note_on 60 100 0; message note_off 60 64 480];
     ticks_per_beat := 480 |}.

Definition scenario_A_track : Track.t :=
  {| Track.track := merged_tracks scenario_A; Track.tpb := 480;
     Track._disable_vel := false |}.

(** The note of scenario A when its note-off arrives, and the state the
    loop ends in. *)
Definition scenario_A_note : Note.t :=
  {| Note.oid := 0; Note.note_value := 60; Note.pitch := "C";
     Note.octave := 4; Note.start := 0; Note.duration := 4;
     Note.velocity := 12 |}.

Definition scenario_A_state : Track.state :=
  {| Track.time := 4; Track.durations := {[ 60 := [] ]};
     Track.lines :=
       [{| Line.items := [ANote scenario_A_note]; Line.start := 0;
           Line.duration := 4 |}];
     Track.seen := 2 |}.

(** Scenario B: the same pitch twice, two sixteenths each, four sixteenths
    of silence in between. *)
Definition scenario_B_track : Track.t :=
  {| Track.track :=
       [message note_on 60 96 0; message note_off 60 64 240;
        message note_on 60 96 480; message note_off 60 64 240];
     Track.tpb := 480;
     Track._disable_vel := false |}.

Definition scenario_B_note (ident : nat) (start : Z) : Note.t :=
  {| Note.oid := ident; Note.note_value := 60; Note.pitch := "C";
     Note.octave := 4; Note.start := start; Note.duration := 2;
     Note.velocity := 12 |}.

Definition scenario_B_line : Line.t :=
  {| Line.items :=
       [ANote (scenario_B_note 0 0); ARest (Rest.init 2 4);
        ANote (scenario_B_note 2 6)];
     Line.start := 0;
     Line.duration := 8 |}.

Definition scenario_B_state : Track.state :=
  {| Track.time := 8; Track.durations := {[ 60 := [] ]};
     Track.lines := [scenario_B_line]; Track.seen := 4 |}.

(** A note-off with no note sounding: the whole track of [stray_track]. *)
Definition stray_track : Track.t :=
  {| Track.track := [message note_off 60 64 0]; Track.tpb := 480;
     Track._disable_vel := false |}.

(** The score of a track that closes its note, then meets the note-on
    idiom of a note-off for the same pitch. *)
Definition stray_score : Midi.t :=
  {| Midi.tempo := 120;
     Midi.track :=
       {| Track.track :=
            merged_tracks scenario_A
            ++ message note_on 60 0 0 :: [message note_on 62 90 0];
          Track.tpb := 480;
          Track._disable_vel := false |} |}.

(** Two notes opened together, only the first of them closed. *)
Definition unclosed_track : Track.t :=
  {| Track.track :=
       [message note_on 60 96 0; message note_on 62 96 0;
        message note_off 60 64 480];
     Track.tpb := 480;
     Track._disable_vel := false |}.

Definition unclosed_note : Note.t :=
  {| Note.oid := 1; Note.note_value := 62; Note.pitch := "D";
     Note.octave := 4; Note.start := 0; Note.duration := 4;
     Note.velocity := 12 |}.

Definition unclosed_state : Track.state :=
  {| Track.time := 4;
     Track.durations := {[ 60 := []; 62 := [unclosed_note] ]};
     Track.lines :=
       [{| Line.items := [ANote scenario_A_note]; Line.start := 0;
           Line.duration := 4 |}];
     Track.seen := 3 |}.

(** One note, opened a beat into the track, closed at once; read with a
    speed multiplier of -1 the beat counts backwards. *)
Definition backwards_messages : list Message :=
  [message note_on 60 96 480; message note_off 60 64 0].

Definition backwards_line : Line.t :=
  {| Line.items :=
       [ANote {| Note.oid := 0; Note.note_value := 60; Note.pitch := "C";
                 Note.octave := 4; Note.start := -4; Note.duration := 0;
                 Note.velocity := 12 |}];
     Line.start := -4;
     Line.duration := 0 |}.

Definition backwards_state : Track.state :=
  {| Track.time := -4; Track.durations := {[ 60 := [] ]};
     Track.lines := [backwards_line]; Track.seen := 2 |}.

(** Two notes of one pitch opened one after the other, before any closes. *)
Definition nested_messages : list Message :=
  [message note_on 60 96 0; message note_on 60 96 240].

Definition nested_note (ident : nat) (start duration : Z) : Note.t :=
  {| Note.oid := ident; Note.note_value := 60; Note.pitch := "C";
     Note.octave := 4; Note.start := start; Note.duration := duration;
     Note.velocity := 12 |}.

Definition nested_state : Track.state :=
  {| Track.time := 2;
     Track.durations := {[ 60 := [nested_note 0 0 2; nested_note 1 2 0] ]};
     Track.lines := []; Track.seen := 2 |}.

(** * Properties *)

(** ** Runs of the embedding *)

Example round_ties_to_even :
  round 0.5 = Ok 0 /\ round 1.5 = Ok 2 /\ round 2.5 = Ok 2 /\
  round (-2.5) = Ok (-2) /\ round 3.75 = Ok 4 /\ round (-0.25) = Ok 0.
Proof. vm_compute. repeat split. Qed.

Example round_not_finite :
  round nan = Raise ValueError /\ round infinity = Raise OverflowError.
Proof. vm_compute. split; reflexivity. Qed.

Example float_of_int_runs :
  float_of_int 480 = Ok 480%float /\
  float_of_int (2 ^ 53 + 1) = Ok 9007199254740992%float /\
  float_of_int (2 ^ 1024) = Raise OverflowError.
Proof. vm_compute. repeat split. Qed.

Example str_runs : str 0 = "0" /\ str 120 = "120" /\ str (-1) = "-1".
Proof. vm_compute. repeat split. Qed.

Example scale_velocity_runs :
  Note.scale_velocity 0 = Ok 0 /\ Note.scale_velocity 96 = Ok 12 /\
  Note.scale_velocity 100 = Ok 12 /\ Note.scale_velocity 108 = Ok 14 /\
  Note.scale_velocity 127 = Ok 16.
Proof. vm_compute. repeat split. Qed.

Example _get_length_str_runs :
  Note._get_length_str "C" 1 = Ok "16" /\
  Note._get_length_str "C" 5 = Ok "&C16" /\
  Note._get_length_str "C" 7 = Ok "4.&C16" /\
  Note._get_length_str "R" 29 = Ok "1.&R&R16" /\
  Note._get_length_str "C" 0 = Raise AssertionError.
Proof. vm_compute. repeat split. Qed.

Example key_chain_runs :
  key_chain 4 = [3; 1] /\ key_chain 12 = [12] /\ key_chain 29 = [24; 4; 1] /\
  tie_chain "R" [24; 4; 1] = "1.&R&R16".
Proof. vm_compute. repeat split. Qed.

Example scenario_B_runs :
  Track.encode scenario_B_track = Ok "O4C8R8.&R16O4C8".
Proof. vm_compute. reflexivity. Qed.

(** Two notes that overlap go to two lines. *)
Example two_lines_run :
  Midi.convert
    {| merged_tracks :=
         [message note_on 60 96 0; message note_on 64 127 240;
          message note_off 60 64 240; message other 0 0 10;
          message note_off 64 64 480];
       ticks_per_beat := 480 |}
    90 false 1 = Ok "7ML@T90O4C8.&C16,R8V16O4E4.;".
Proof. vm_compute. reflexivity. Qed.

(** [--speed_mult -1] is taken as it is. *)
Example backwards_run :
  main {| merged_tracks := backwards_messages; ticks_per_beat := 480 |}
    None false (Some (-1)%float) = Ok "7ML@;".
Proof. vm_compute. reflexivity. Qed.

Example no_ticks_per_beat_run :
  Midi.convert {| merged_tracks := merged_tracks scenario_A;
                  ticks_per_beat := 0 |} 120 false 1
  = Raise ZeroDivisionError.
Proof. vm_compute. reflexivity. Qed.

(** ** The duration-to-token decomposition *)

(** Closes one clause of a definition by cases on the duration: the tests
    of the clause decide the tests of the body. *)
Ltac by_clause duration :=
  try match goal with
      | Hcall : _ = ?call |- ?call = _ => rewrite <- Hcall
      end;
  destruct (Z.ltb_spec duration 1); try lia;
  repeat match goal with
         | E : ?x = _ |- context [?x] => rewrite E
         end;
  reflexivity.

(** The body of [_get_length_str], with the recursive call in place. *)
Lemma _get_length_str_body (pitch : string) (duration : Z) :
  Note._get_length_str pitch duration =
    if duration <? 1 then Raise AssertionError
    else if Note.truthy (Note.get Note.d duration)
    then Ok (default "" (Note.get Note.d duration))
    else
      match Note.find_low duration with
      | None => Raise KeyError
      | Some low =>
          head ← Note.getitem Note.d (Some low);
          tail ← Note._get_length_str pitch (duration - low);
          Ok (head +:+ "&" +:+ pitch +:+ tail)
      end.
Proof.
  funelim (Note._get_length_str pitch duration).
  all: by_clause duration.
Qed.

(** Every table key but 4 decomposes to its own token. *)
Lemma table_keys_but_quarter (pitch : string) :
  Forall (fun entry => fst entry = 4 \/
            Note._get_length_str pitch (fst entry) = Ok (snd entry)) Note.d.
Proof.
  unfold Note.d.
  repeat (apply Forall_cons; split;
          [first [left; reflexivity
                 |right; rewrite _get_length_str_body; reflexivity] |]).
  apply Forall_nil. exact I.
Qed.

(** C1 at the key 4: the table holds the blank token for the quarter note,
    but the blank is false for [if not result], so the quarter note is tied
    from a dotted eighth and a sixteenth. *)
Theorem C1_quarter_note_is_tied (pitch : string) :
  Note.get Note.d 4 = Some "" /\
  Note._get_length_str pitch 4 = Ok ("8.&" +:+ pitch +:+ "16") /\
  Note._get_length_str pitch 4 <> Ok "".
Proof.
  assert (E : Note._get_length_str pitch 4 = Ok ("8.&" +:+ pitch +:+ "16")).
  { rewrite _get_length_str_body. simpl.
    rewrite _get_length_str_body. reflexivity. }
  split; [reflexivity | split; [exact E |]].
  rewrite E. discriminate.
Qed.

(** C8: a duration below one sixteenth fails the assertion. *)
Theorem C8_short_duration_asserts (pitch : string) (duration : Z) :
  duration < 1 -> Note._get_length_str pitch duration = Raise AssertionError.
Proof.
  intros Hlt. rewrite _get_length_str_body.
  destruct (Z.ltb_spec duration 1); [reflexivity | lia].
Qed.

Lemma C8_short_duration_asserts_witness :
  0 < 1 /\ Note._get_length_str "C" 0 = Raise AssertionError.
Proof.
  split; [lia | apply (C8_short_duration_asserts "C" 0); lia].
Defined.

(** The search over [reversed(d)] succeeds whenever it is reached: it
    finds a table key, at least 1 and strictly below the duration. *)
Lemma find_low_spec (duration : Z) :
  1 <= duration -> Note.truthy (Note.get Note.d duration) = false ->
  exists low, Note.find_low duration = Some low /\ 1 <= low < duration /\
              is_Some (Note.get Note.d low) /\
              Note.getitem Note.d (Some low) = Ok (token low).
Proof.
  intros Hge Hfalse. unfold Note.find_low. simpl.
  repeat match goal with
         | |- context [if ?k <? duration then _ else _] =>
             destruct (Z.ltb_spec k duration)
         end.
  all: try (eexists; split; [reflexivity |];
            split; [lia | split; [eexists; reflexivity | reflexivity]]).
  assert (duration = 1) as -> by lia. discriminate Hfalse.
Qed.


Lemma key_chain_body (duration : Z) :
  key_chain duration =
    if duration <? 1 then []
    else if Note.truthy (Note.get Note.d duration) then [duration]
    else
      match Note.find_low duration with
      | None => []
      | Some low => low :: key_chain (duration - low)
      end.
Proof.
  funelim (key_chain duration).
  all: by_clause duration.
Qed.



(** ** The monad and the list helpers *)

Lemma bind_Ok {A B : Type} (r : result A) (k : A -> result B) (b : B) :
  r ≫= k = Ok b <-> exists a, r = Ok a /\ k a = Ok b.
Proof.
  destruct r as [a | e]; simpl.
  - split; [eauto | intros (a' & [= <-] & H); exact H].
  - split; [discriminate | intros (a' & [=] & _)].
Qed.

Lemma bind_Ok_l {A B : Type} (a : A) (k : A -> result B) : Ok a ≫= k = k a.
Proof. reflexivity. Qed.

Lemma pop_snoc {A : Type} (stack : list A) (x : A) :
  pop (stack ++ [x]) = Ok (stack, x).
Proof.
  induction stack as [| y stack IH]; [reflexivity |].
  simpl. destruct (stack ++ [x]) eqn:E.
  - destruct stack; discriminate.
  - rewrite IH. reflexivity.
Qed.

Lemma pop_Ok {A : Type} (stack rest : list A) (x : A) :
  pop stack = Ok (rest, x) <-> stack = rest ++ [x].
Proof.
  split; [| intros ->; apply pop_snoc].
  revert rest. induction stack as [| y stack IH]; intros rest; [discriminate |].
  simpl. destruct stack as [| z stack].
  - intros [= <- <-]. reflexivity.
  - destruct (pop (z :: stack)) as [[rest' x'] | e] eqn:E; [| discriminate].
    simpl. intros [= <- <-]. rewrite (IH rest' eq_refl). reflexivity.
Qed.

Lemma rfind_Some {A : Type} (p : A -> bool) (l : list A) (i : nat) :
  Track.rfind p l = Some i -> exists x, l !! i = Some x /\ p x = true.
Proof.
  revert i. induction l as [| x l IH]; intros i; [discriminate |].
  simpl. destruct (Track.rfind p l) as [j |].
  - intros [= <-]. apply (IH j eq_refl).
  - destruct (p x) eqn:E; [| discriminate].
    intros [= <-]. exists x. split; [reflexivity | exact E].
Qed.

(** ** The loop *)

Lemma loop_invariant (P : Track.state -> Prop) (self : Track.t)
    (msgs : list Message) :
  (forall st msg st',
      msg ∈ msgs -> P st -> Track.step self st msg = Ok st' -> P st') ->
  forall st st', P st -> Track.loop self st msgs = Ok st' -> P st'.
Proof.
  induction msgs as [| msg msgs IH]; intros Hstep st st' HP; simpl.
  - intros [= <-]. exact HP.
  - intros (st1 & Hst1 & Hloop)%bind_Ok.
    apply (IH (fun st msg st' Hin =>
                 Hstep st msg st' (list_elem_of_further _ _ _ Hin))
              st1 st'); [| exact Hloop].
    apply (Hstep st msg st1); [apply list_elem_of_here | exact HP | exact Hst1].
Qed.

Lemma push_insert (durations : gmap Z (list Note.t)) (k : Z) (note : Note.t) :
  alter (fun stack => stack ++ [note]) k
    match durations !! k with
    | None => <[k := []]> durations
    | Some _ => durations
    end
  = <[k := default [] (durations !! k) ++ [note]]> durations.
Proof.
  apply map_eq. intros j. destruct (decide (k = j)) as [<- | Hne].
  - rewrite lookup_insert_eq, lookup_alter_eq.
    destruct (durations !! k) as [stack |] eqn:E.
    + rewrite E. reflexivity.
    + rewrite lookup_insert_eq. reflexivity.
  - rewrite lookup_insert_ne, lookup_alter_ne by done.
    destruct (durations !! k); [reflexivity |].
    rewrite lookup_insert_ne by done. reflexivity.
Qed.

(** A round of the loop succeeds exactly as [turn] tells. *)
Lemma step_Ok (self : Track.t) (st : Track.state) (msg : Message)
    (st' : Track.state) :
  Track.step self st msg = Ok st' <->
  exists delta,
    Track._tick_to_sixteenth self (msg_time msg) = Ok delta /\
    Track.time st' = Track.time st + delta /\
    Track.seen st' = S (Track.seen st) /\
    turn self st msg (grown delta (Track.durations st)) st'.
Proof.
  unfold Track.step. rewrite bind_Ok. fold (grown).
  apply exist_proper; intros delta. apply and_iff_compat_l.
  fold (grown delta (Track.durations st)).
  set (durations := grown delta (Track.durations st)).
  destruct st' as [time' durations' lines' seen']; simpl.
  destruct (msg_type_of msg) eqn:Hty; simpl.
  - (* note_on *)
    destruct (Z.ltb_spec 0 (msg_velocity msg)) as [Hvel | Hvel]; simpl.
    + rewrite bind_Ok. split.
      * intros (note & Hnote & [= <- <- <- <-]).
        split; [reflexivity | split; [reflexivity |]].
        apply (turn_on _ _ _ _ _ note); simpl;
          [by split | done | apply push_insert | done].
      * intros (-> & -> & [Hother | note [_ _] Hnote Hdur Hlines
                                  | ? ? ? ? Hoff]); simpl in *.
        -- congruence.
        -- exists note. split; [done |]. rewrite push_insert. congruence.
        -- destruct Hoff as [? | [_ ?]]; [congruence | lia].
    + destruct (durations !! msg_note msg) as [stack |] eqn:Hstack.
      * rewrite bind_Ok. split.
        -- intros ([rest note] & Hpop%pop_Ok & Hrest). subst stack.
           destruct (Track._get_available_line (Track.lines st) note)
             as [lines i] eqn:Hline.
           injection Hrest as <- <- <- <-.
           split; [reflexivity | split; [reflexivity |]].
           apply (turn_off _ _ _ _ _ rest note lines i); simpl; try done.
           right. split; [done | lia].
        -- intros (-> & -> & [Hother | note [_ ?] _ _ _
                                    | rest note lines i _ Hst Hdur Hline Hlines]);
             simpl in *; [congruence | lia |].
           rewrite Hstack in Hst. injection Hst as ->.
           exists (rest, note). rewrite pop_snoc. split; [done |].
           rewrite Hline. congruence.
      * split; [discriminate |].
        intros (-> & -> & [Hother | note [_ ?] _ _ _
                                  | rest note lines i _ Hst _ _ _]);
          simpl in *; [congruence | lia | congruence].
  - (* note_off *)
    destruct (durations !! msg_note msg) as [stack |] eqn:Hstack.
    + rewrite bind_Ok. split.
      * intros ([rest note] & Hpop%pop_Ok & Hrest). subst stack.
        destruct (Track._get_available_line (Track.lines st) note)
          as [lines i] eqn:Hline.
        injection Hrest as <- <- <- <-.
        split; [reflexivity | split; [reflexivity |]].
        apply (turn_off _ _ _ _ _ rest note lines i); simpl; try done.
        by left.
      * intros (-> & -> & [Hother | note [? _] _ _ _
                                  | rest note lines i _ Hst Hdur Hline Hlines]);
          simpl in *; [congruence | congruence |].
        rewrite Hstack in Hst. injection Hst as ->.
        exists (rest, note). rewrite pop_snoc. split; [done |].
        rewrite Hline. congruence.
    + split; [discriminate |].
      intros (-> & -> & [Hother | note [? _] _ _ _
                                | rest note lines i _ Hst _ _ _]);
        simpl in *; congruence.
  - (* any other type *)
    split.
    + intros [= <- <- <- <-].
      split; [reflexivity | split; [reflexivity |]].
      by apply turn_other.
    + intros (-> & -> & [_ Hdur Hlines | note [? _] _ _ _
                                | rest note lines i [? | [? _]] _ _ _ _]);
        simpl in *; congruence.
Qed.

(** ** Lines stay contiguous, and their rests positive *)

Lemma contiguous_snoc (from mid : Z) (items : list entity) (x : entity)
    (to : Z) :
  contiguous from items mid -> entity_start x = mid -> entity_end x = to ->
  contiguous from (items ++ [x]) to.
Proof.
  revert from. induction items as [| y items IH]; intros from; simpl.
  - intros -> -> ->. split; reflexivity.
  - intros [Hy Hrest] Hx Hto. split; [exact Hy | by apply IH].
Qed.

Lemma contiguous_first (from : Z) (items : list entity) (to : Z) (x : entity) :
  contiguous from items to -> items !! 0%nat = Some x -> entity_start x = from.
Proof. destruct items; [discriminate |]. intros [H _] [= <-]. exact H. Qed.

Lemma contiguous_next (from : Z) (items : list entity) (to : Z) (i : nat)
    (x y : entity) :
  contiguous from items to ->
  items !! i = Some x -> items !! S i = Some y ->
  entity_start y = entity_end x.
Proof.
  revert from i.
  induction items as [| z items IH]; intros from i; [discriminate |].
  intros [_ Hrest] Hx Hy. destruct i as [| i].
  - injection Hx as <-. apply (contiguous_first _ _ _ _ Hrest Hy).
  - apply (IH _ i Hrest Hx Hy).
Qed.

(** A fresh line is contiguous from 0, or from its start when negative;
    its rest, when it has one, is positive. *)
Lemma Line_init_contiguous (start : Z) :
  contiguous (Z.min 0 start) (Line.items (Line.init start))
    (Line.end_ (Line.init start)).
Proof.
  unfold Line.init, Line.end_. simpl.
  destruct (Z.ltb_spec 0 start); simpl.
  - unfold Rest.end_. simpl. lia.
  - lia.
Qed.

Lemma Line_init_rests (start : Z) (r : Rest.t) :
  ARest r ∈ Line.items (Line.init start) -> 0 < Rest.duration r.
Proof.
  unfold Line.init. simpl. destruct (Z.ltb_spec 0 start).
  - intros [= ->]%list_elem_of_singleton. exact H.
  - intros []%elem_of_nil.
Qed.

(** Appending a note that starts no earlier than the line ends keeps the
    line contiguous; the rest [append] may add is positive. *)
Lemma Line_append_ok (line : Line.t) (note : Note.t) :
  contiguous (Z.min 0 (Line.start line)) (Line.items line) (Line.end_ line) ->
  (forall r, ARest r ∈ Line.items line -> 0 < Rest.duration r) ->
  Line.end_ line <= Note.start note ->
  line_ok (Line.append line note).
Proof.
  intros Hcont Hrests Hle. unfold Line.append.
  destruct (Z.ltb_spec (Line.end_ line) (Note.start note)) as [Hgap | Hnone].
  - split; simpl.
    + intros [? [=]]%app_eq_nil.
    + apply (contiguous_snoc _ (Note.start note));
        [| reflexivity | simpl; unfold Line.end_, Note.end_ in *; simpl; lia].
      apply (contiguous_snoc _ (Line.end_ line));
        [exact Hcont | reflexivity | simpl; unfold Rest.end_; simpl; lia].
    + intros r [[Hr | [= ->]%list_elem_of_singleton]%elem_of_app
               | [=]%list_elem_of_singleton]%elem_of_app.
      * by apply Hrests.
      * simpl. lia.
  - split; simpl.
    + intros [? [=]]%app_eq_nil.
    + apply (contiguous_snoc _ (Line.end_ line));
        [exact Hcont | simpl; lia
        | simpl; unfold Line.end_, Note.end_ in *; simpl; lia].
    + intros r [Hr | [=]%list_elem_of_singleton]%elem_of_app.
      by apply Hrests.
Qed.

(** The line handed back is free at the start of the note: an old one that
    has ended by then, or a fresh one that starts there. *)
Lemma _get_available_line_spec (lines : list Line.t) (note : Note.t)
    (lines' : list Line.t) (i : nat) :
  Track._get_available_line lines note = (lines', i) ->
  (lines' = lines /\
   exists line, lines !! i = Some line /\ Line.end_ line <= Note.start note) \/
  (lines' = lines ++ [Line.init (Note.start note)] /\ i = length lines).
Proof.
  unfold Track._get_available_line.
  destruct (Track.rfind _ lines) as [j |] eqn:Hfind.
  - intros [= <- <-]. left. split; [reflexivity |].
    destruct (rfind_Some _ _ _ Hfind) as (line & Hline & Hfree).
    exists line. split; [exact Hline | lia].
  - intros [= <- <-]. right. split; reflexivity.
Qed.

Lemma turn_lines_ok (self : Track.t) (st : Track.state) (msg : Message)
    (durations : gmap Z (list Note.t)) (st' : Track.state) :
  turn self st msg durations st' ->
  Forall line_ok (Track.lines st) -> Forall line_ok (Track.lines st').
Proof.
  intros [_ _ -> | note _ _ _ -> | stack note lines i _ _ _ Hline ->] Hok;
    [exact Hok | exact Hok |].
  destruct (_get_available_line_spec _ _ _ _ Hline)
    as [(-> & line & Hi & Hfree) | (-> & ->)].
  - apply Forall_alter; [exact Hok |].
    intros line' Hi'. rewrite Hi in Hi'. injection Hi' as <-.
    intros [_ Hcont Hrests]. by apply Line_append_ok.
  - rewrite alter_app_r_alt, Nat.sub_diag by lia. simpl.
    apply Forall_app. split; [exact Hok |].
    apply Forall_cons. split; [| apply Forall_nil; exact I].
    apply Line_append_ok.
    + apply Line_init_contiguous.
    + apply Line_init_rests.
    + unfold Line.init, Line.end_. simpl. lia.
Qed.

Lemma loop_lines_ok (self : Track.t) (msgs : list Message)
    (st st' : Track.state) :
  Forall line_ok (Track.lines st) ->
  Track.loop self st msgs = Ok st' ->
  Forall line_ok (Track.lines st').
Proof.
  apply (loop_invariant (fun st => Forall line_ok (Track.lines st))).
  intros st0 msg st1 _ Hok (delta & _ & _ & _ & Hround)%step_Ok.
  apply (turn_lines_ok _ _ _ _ _ Hround Hok).
Qed.

(** From one sixteenth up the decomposition returns a token. *)
Lemma _get_length_str_returns (pitch : string) (duration : Z) :
  1 <= duration -> exists s, Note._get_length_str pitch duration = Ok s.
Proof.
  intros Hge. assert (Hnn : 0 <= duration) by lia.
  revert Hge. pattern duration. apply Z_lt_induction; [| exact Hnn].
  clear duration Hnn. intros duration IH Hge.
  rewrite _get_length_str_body.
  destruct (Z.ltb_spec duration 1); [lia |].
  destruct (Note.truthy (Note.get Note.d duration)) eqn:Htruthy; [eauto |].
  destruct (find_low_spec duration Hge Htruthy) as (low & -> & Hlow & _ & ->).
  destruct (IH (duration - low) ltac:(lia) ltac:(lia)) as [tail ->].
  simpl. eauto.
Qed.

Lemma Line_append_rests (line : Line.t) (note : Note.t) (r : Rest.t) :
  ARest r ∈ Line.items (Line.append line note) ->
  ARest r ∈ Line.items line \/ 0 < Rest.duration r.
Proof.
  unfold Line.append.
  destruct (Z.ltb_spec (Line.end_ line) (Note.start note)); simpl.
  - intros [[Hr | [= ->]%list_elem_of_singleton]%elem_of_app
           | [=]%list_elem_of_singleton]%elem_of_app; [by left |].
    right. simpl. lia.
  - intros [Hr | [=]%list_elem_of_singleton]%elem_of_app. by left.
Qed.

(** C10: every rest the loop puts into a line has a positive duration, so
    its encoding passes the assertion of the decomposition. *)
Theorem C10_rests_are_positive (self : Track.t) (st : Track.state)
    (line : Line.t) (r : Rest.t) :
  Track.loop self Track.start_state (Track.track self) = Ok st ->
  line ∈ Track.lines st ->
  ARest r ∈ Line.items line ->
  0 < Rest.duration r /\
  (exists s, Rest.encode r = Ok s) /\
  Rest.encode r <> Raise AssertionError.
Proof.
  intros Hloop Hline Hr.
  assert (Hok : Forall line_ok (Track.lines st)).
  { apply (loop_lines_ok self (Track.track self) Track.start_state);
      [apply Forall_nil; exact I | exact Hloop]. }
  rewrite Forall_forall in Hok.
  assert (Hpos : 0 < Rest.duration r) by (apply (line_rests line); auto).
  destruct (_get_length_str_returns (Rest.pitch r) (Rest.duration r))
    as [s Hs]; [lia |].
  unfold Rest.encode. rewrite Hs. simpl.
  split; [exact Hpos | split; [eauto | discriminate]].
Qed.

Lemma C10_rests_are_positive_witness :
  Track.loop scenario_B_track Track.start_state (Track.track scenario_B_track)
    = Ok scenario_B_state /\
  scenario_B_line ∈ Track.lines scenario_B_state /\
  ARest (Rest.init 2 4) ∈ Line.items scenario_B_line /\
  0 < Rest.duration (Rest.init 2 4) /\
  (exists s, Rest.encode (Rest.init 2 4) = Ok s) /\
  Rest.encode (Rest.init 2 4) <> Raise AssertionError.
Proof.
  assert (Hloop : Track.loop scenario_B_track Track.start_state
                    (Track.track scenario_B_track) = Ok scenario_B_state)
    by (vm_compute; reflexivity).
  assert (Hline : scenario_B_line ∈ Track.lines scenario_B_state)
    by apply list_elem_of_here.
  assert (Hrest : ARest (Rest.init 2 4) ∈ Line.items scenario_B_line)
    by (apply list_elem_of_further, list_elem_of_here).
  split; [exact Hloop | split; [exact Hline | split; [exact Hrest |]]].
  exact (C10_rests_are_positive scenario_B_track scenario_B_state
           scenario_B_line (Rest.init 2 4) Hloop Hline Hrest).
Defined.

(** ** Signs through the quantizer *)

Lemma binary_round_aux_unsigned (m e : Z) (l : location) :
  unsigned (binary_round_aux prec emax false m e l).
Proof.
  unfold binary_round_aux.
  destruct (shr_fexp prec emax m e l) as [mrs' e'].
  destruct (shr_fexp prec emax _ e' loc_Exact) as [mrs'' e''].
  destruct (shr_m mrs''); [reflexivity | | exact I].
  destruct (e'' <=? emax - prec); reflexivity.
Qed.

Lemma binary_round_unsigned (m : positive) (e : Z) :
  unsigned (binary_round prec emax false m e).
Proof.
  unfold binary_round. destruct (shl_align _ _ _) as [mz ez].
  apply binary_round_aux_unsigned.
Qed.

Lemma binary_normalize_unsigned (n e : Z) :
  0 <= n -> unsigned (binary_normalize prec emax n e false).
Proof.
  destruct n; simpl;
    [reflexivity | intros _; apply binary_round_unsigned | lia].
Qed.

Lemma SFldexp_unsigned (x : spec_float) (e : Z) :
  unsigned x -> unsigned (SFldexp prec emax x e).
Proof.
  destruct x as [s | s | | s m e']; simpl; try done.
  intros ->. apply binary_round_unsigned.
Qed.

Lemma SF2Prim_unsigned (x : spec_float) :
  unsigned x -> unsigned (Prim2SF (SF2Prim x)).
Proof.
  destruct x as [s | s | | s m e]; simpl.
  - intros ->. vm_compute. reflexivity.
  - intros ->. vm_compute. reflexivity.
  - intros _. vm_compute. exact I.
  - intros ->. rewrite Z_ldexp_spec, of_uint63_spec.
    apply SFldexp_unsigned, binary_normalize_unsigned.
    apply Uint63.to_Z_bounded.
Qed.

Lemma SFdiv_unsigned (x y : spec_float) :
  unsigned x -> unsigned y -> unsigned (SFdiv prec emax x y).
Proof.
  destruct x as [sx | sx | | sx mx ex], y as [sy | sy | | sy my ey]; simpl;
    try done; try (intros -> ->; reflexivity).
  intros -> ->. destruct (SFdiv_core_binary _ _ _ _ _ _) as [[mz ez] lz].
  apply binary_round_aux_unsigned.
Qed.

Lemma SFmul_unsigned (x y : spec_float) :
  unsigned x -> unsigned y -> unsigned (SFmul prec emax x y).
Proof.
  destruct x as [sx | sx | | sx mx ex], y as [sy | sy | | sy my ey]; simpl;
    try done; try (intros -> ->; reflexivity).
  intros -> ->. apply binary_round_aux_unsigned.
Qed.

Lemma positive_unsigned (x : float) :
  (0 <? x)%float = true -> unsigned (Prim2SF x).
Proof.
  rewrite ltb_spec. change (Prim2SF 0) with (S754_zero false).
  destruct (Prim2SF x) as [s | s | | s m e]; simpl; try done.
  - unfold SFltb. simpl. destruct s; [discriminate | reflexivity].
  - unfold SFltb; simpl. destruct s; [discriminate | reflexivity].
Qed.

Lemma float_of_int_unsigned (n : Z) (x : float) :
  0 <= n -> float_of_int n = Ok x -> unsigned (Prim2SF x).
Proof.
  intros Hn. unfold float_of_int.
  destruct (PrimFloat.is_infinity _); [discriminate |].
  intros [= <-]. by apply SF2Prim_unsigned, binary_normalize_unsigned.
Qed.

Lemma round_half_even_nonneg (m : positive) (e : Z) :
  0 <= round_half_even (Z.pos m) e.
Proof.
  unfold round_half_even. destruct (Z.leb_spec 0 e) as [He | He].
  - apply Z.mul_nonneg_nonneg; [lia | by apply Z.pow_nonneg].
  - assert (Hunit : 0 < 2 ^ (- e)) by (apply Z.pow_pos_nonneg; lia).
    assert (Hq : 0 <= Z.pos m / 2 ^ (- e)) by (apply Z.div_pos; lia).
    repeat match goal with |- context [if ?b then _ else _] => destruct b end;
      lia.
Qed.

Lemma round_unsigned (x : float) (n : Z) :
  unsigned (Prim2SF x) -> round x = Ok n -> 0 <= n.
Proof.
  unfold round. destruct (Prim2SF x) as [s | s | | s m e]; simpl; try done.
  - intros _ [= <-]. lia.
  - intros -> [= <-]. apply round_half_even_nonneg.
Qed.

(** Non-negative ticks over a positive scale quantize to a non-negative
    number of sixteenths. *)
Lemma _tick_to_sixteenth_nonneg (self : Track.t) (ticks delta : Z) :
  0 <= ticks -> (0 <? Track.tpb self)%float = true ->
  Track._tick_to_sixteenth self ticks = Ok delta -> 0 <= delta.
Proof.
  intros Hticks Hscale. unfold Track._tick_to_sixteenth.
  intros (x & Hx & (beats & Hbeats & Hround)%bind_Ok)%bind_Ok.
  apply (round_unsigned _ _) in Hround; [exact Hround |].
  unfold truediv in Hbeats.
  destruct (Track.tpb self =? 0)%float; [discriminate |].
  injection Hbeats as <-.
  rewrite mul_spec, div_spec. apply SFmul_unsigned.
  - apply SFdiv_unsigned;
      [by apply (float_of_int_unsigned ticks) | by apply positive_unsigned].
  - vm_compute. reflexivity.
Qed.

(** ** Where the notes are, turn by turn *)

Lemma Note_init_Ok (ident : nat) (msg : Message) (start duration : Z)
    (disable_vel : bool) (n : Note.t) :
  Note.init ident msg start duration disable_vel = Ok n ->
  Note.oid n = ident /\ Note.start n = start /\ Note.duration n = duration /\
  Note.note_value n = msg_note msg.
Proof.
  unfold Note.init. intros (v & _ & [= <-])%bind_Ok. simpl. done.
Qed.

Lemma sounding_grown (delta : Z) (durations : gmap Z (list Note.t)) (k : Z)
    (i : nat) (n : Note.t) :
  sounding (grown delta durations) k i n <->
  exists n0, sounding durations k i n0 /\ n = Note.grow delta n0.
Proof.
  unfold sounding, grown. split.
  - intros (stack & Hstack & Hn). rewrite lookup_fmap in Hstack.
    apply fmap_Some in Hstack as (stack0 & Hstack0 & ->).
    rewrite list_lookup_fmap in Hn.
    apply fmap_Some in Hn as (n0 & Hn0 & ->). eauto.
  - intros (n0 & (stack & Hstack & Hn0) & ->).
    exists (Note.grow delta <$> stack).
    rewrite lookup_fmap, Hstack, list_lookup_fmap, Hn0. done.
Qed.

Lemma sounding_push (durations : gmap Z (list Note.t)) (k : Z)
    (note : Note.t) (k' : Z) (i : nat) (n : Note.t) :
  sounding (<[k := default [] (durations !! k) ++ [note]]> durations) k' i n <->
  sounding durations k' i n \/
  (k' = k /\ i = length (default [] (durations !! k)) /\ n = note).
Proof.
  unfold sounding. destruct (decide (k = k')) as [<- | Hne].
  - rewrite lookup_insert_eq. split.
    + intros (stack & [= <-] & Hn).
      apply lookup_snoc_Some in Hn as [[Hi Hn] | [<- <-]]; [| by right].
      left. destruct (durations !! k) as [stack |]; [eauto |].
      simpl in Hi. lia.
    + intros [(stack & Hstack & Hn) | (_ & -> & ->)]; eexists;
        (split; [done |]).
      * rewrite Hstack. simpl. by apply lookup_app_l_Some.
      * apply list_lookup_middle. done.
  - rewrite lookup_insert_ne by done. split; [by left |].
    intros [H | (-> & _)]; [exact H | done].
Qed.

Lemma sounding_pop (durations : gmap Z (list Note.t)) (k : Z)
    (stack : list Note.t) (note : Note.t) (k' : Z) (i : nat) (n : Note.t) :
  durations !! k = Some (stack ++ [note]) ->
  sounding (<[k := stack]> durations) k' i n <->
  sounding durations k' i n /\ ~ (k' = k /\ i = length stack).
Proof.
  intros Hk. unfold sounding. destruct (decide (k = k')) as [<- | Hne].
  - rewrite lookup_insert_eq, Hk. split.
    + intros (? & [= <-] & Hn). split.
      * eexists. split; [done |]. by apply lookup_app_l_Some.
      * intros [_ ->]. apply lookup_lt_Some in Hn. lia.
    + intros [(? & [= <-] & Hn) Hnot]. eexists. split; [done |].
      apply lookup_snoc_Some in Hn as [[_ Hn] | [-> _]]; [exact Hn |].
      destruct Hnot. done.
  - rewrite lookup_insert_ne by done. split; [| by intros [H _]].
    intros H. split; [exact H |]. intros [-> _]. done.
Qed.

(** The note on top of a stack is sounding. *)
Lemma sounding_top (durations : gmap Z (list Note.t)) (k : Z)
    (stack : list Note.t) (note : Note.t) :
  durations !! k = Some (stack ++ [note]) ->
  sounding durations k (length stack) note.
Proof.
  intros Hk. exists (stack ++ [note]). split; [exact Hk |].
  by apply list_lookup_middle.
Qed.

Lemma Line_init_notes (start : Z) (n : Note.t) :
  ANote n ∉ Line.items (Line.init start).
Proof.
  unfold Line.init. simpl. destruct (0 <? start).
  - intros [=]%list_elem_of_singleton.
  - apply not_elem_of_nil.
Qed.

Lemma Line_append_notes (line : Line.t) (note n : Note.t) :
  ANote n ∈ Line.items (Line.append line note) <->
  ANote n ∈ Line.items line \/ n = note.
Proof.
  unfold Line.append.
  destruct (Line.end_ line <? Note.start note); simpl;
    rewrite ?elem_of_app, !list_elem_of_singleton; split.
  - intros [[H | [=]] | [= ->]]; auto.
  - intros [H | ->]; auto.
  - intros [H | [= ->]]; auto.
  - intros [H | ->]; auto.
Qed.

Lemma Line_append_start (line : Line.t) (note : Note.t) :
  Line.start (Line.append line note) = Line.start line.
Proof. unfold Line.append. destruct (_ <? _); reflexivity. Qed.

(** After a note-off the lines hold what they held, and the note. *)
Lemma placed_put (lines : list Line.t) (note : Note.t)
    (lines' : list Line.t) (i : nat) (n : Note.t) :
  Track._get_available_line lines note = (lines', i) ->
  placed (alter (fun line => Line.append line note) i lines') n <->
  placed lines n \/ n = note.
Proof.
  intros Hline. unfold placed.
  destruct (_get_available_line_spec _ _ _ _ Hline)
    as [(-> & line & Hi & _) | (-> & ->)].
  - split.
    + intros (line' & (j & Hj)%list_elem_of_lookup & Hn).
      rewrite list_lookup_alter in Hj. destruct (decide (i = j)) as [<- | Hne].
      * rewrite Hi in Hj. injection Hj as <-.
        apply Line_append_notes in Hn as [Hn | ->]; [| by right].
        left. exists line. split; [by eapply list_elem_of_lookup_2 | done].
      * left. exists line'. split; [by eapply list_elem_of_lookup_2 | done].
    + intros [(line' & (j & Hj)%list_elem_of_lookup & Hn) | ->].
      * destruct (decide (i = j)) as [<- | Hne].
        -- exists (Line.append line note). split.
           ++ apply (list_elem_of_lookup_2 _ i).
              by rewrite list_lookup_alter_eq, Hi.
           ++ apply Line_append_notes. left. congruence.
        -- exists line'. split; [| done].
           apply (list_elem_of_lookup_2 _ j).
           by rewrite list_lookup_alter_ne.
      * exists (Line.append line note). split.
        -- apply (list_elem_of_lookup_2 _ i).
           by rewrite list_lookup_alter_eq, Hi.
        -- apply Line_append_notes. by right.
  - rewrite alter_app_r_alt, Nat.sub_diag by lia. simpl.
    setoid_rewrite elem_of_app. setoid_rewrite list_elem_of_singleton. split.
    + intros (line' & [Hin | ->] & Hn); [left; eauto |].
      apply Line_append_notes in Hn as [Hn | ->]; [| by right].
      by apply Line_init_notes in Hn.
    + intros [(line' & Hin & Hn) | ->]; [eauto |].
      eexists. split; [by right |]. apply Line_append_notes. by right.
Qed.

Lemma lines_after_put (lines : list Line.t) (note : Note.t)
    (lines' : list Line.t) (i : nat) (line' : Line.t) :
  Track._get_available_line lines note = (lines', i) ->
  line' ∈ alter (fun line => Line.append line note) i lines' ->
  line' ∈ lines \/
  (exists line, line ∈ lines /\ line' = Line.append line note) \/
  line' = Line.append (Line.init (Note.start note)) note.
Proof.
  intros Hline.
  destruct (_get_available_line_spec _ _ _ _ Hline)
    as [(-> & line & Hi & _) | (-> & ->)].
  - intros (j & Hj)%list_elem_of_lookup.
    rewrite list_lookup_alter in Hj. destruct (decide (i = j)) as [<- | Hne].
    + rewrite Hi in Hj. injection Hj as <-.
      right; left. exists line. split; [by eapply list_elem_of_lookup_2 | done].
    + left. by eapply list_elem_of_lookup_2.
  - rewrite alter_app_r_alt, Nat.sub_diag by lia. simpl.
    rewrite elem_of_app, list_elem_of_singleton. intros [H | ->]; auto.
Qed.

(** ** When time moves forward *)

Lemma turn_forward (self : Track.t) (st : Track.state) (msg : Message)
    (delta : Z) (st' : Track.state) :
  0 <= delta -> Track.time st' = Track.time st + delta ->
  turn self st msg (grown delta (Track.durations st)) st' ->
  forward st -> forward st'.
Proof.
  intros Hdelta Htime Hturn [Ht Hsnd Hlines].
  assert (Hgrown : forall k i n,
             sounding (grown delta (Track.durations st)) k i n ->
             0 <= Note.start n /\ 0 <= Note.duration n).
  { intros k i n (n0 & Hn0 & ->)%sounding_grown.
    destruct (Hsnd k i n0 Hn0). simpl. lia. }
  destruct Hturn as [_ Hdur Hl | note _ Hnote Hdur Hl
                    | stack note lines i _ Hstack Hdur Hline Hl].
  - split; [lia | by rewrite Hdur | by rewrite Hl].
  - split; [lia | | by rewrite Hl].
    rewrite Hdur. intros k i n [H | (_ & _ & ->)]%sounding_push; [eauto |].
    apply Note_init_Ok in Hnote as (_ & -> & -> & _). lia.
  - destruct (Hgrown _ _ _ (sounding_top _ _ _ _ Hstack)) as [Hs Hd].
    split; [lia | |].
    + rewrite Hdur. intros k j n [H _]%(sounding_pop _ _ _ _ _ _ _ Hstack).
      eauto.
    + rewrite Hl. intros line' Hin.
      destruct (lines_after_put _ _ _ _ _ Hline Hin)
        as [Hold | [(line & Hold & ->) | ->]].
      * by apply Hlines.
      * destruct (Hlines line Hold) as [Hstart Hnotes].
        rewrite Line_append_start. split; [exact Hstart |].
        intros n [Hn | ->]%Line_append_notes; eauto.
      * rewrite Line_append_start. split; [exact Hs |].
        intros n [Hn | ->]%Line_append_notes; [| exact Hd].
        by apply Line_init_notes in Hn.
Qed.

Lemma loop_forward (self : Track.t) (st st' : Track.state) :
  never_backwards self ->
  forward st ->
  Track.loop self st (Track.track self) = Ok st' ->
  forward st'.
Proof.
  intros Hnever. apply (loop_invariant forward).
  intros st0 msg st1 Hin Hfw (delta & Hdelta & Htime & _ & Hturn)%step_Ok.
  apply (turn_forward self st0 msg delta); try done.
  by apply (Hnever msg).
Qed.

(** Non-negative ticks over a positive scale never count backwards. *)
Lemma positive_scale_never_backwards (self : Track.t) :
  Forall (fun msg => 0 <= msg_time msg) (Track.track self) ->
  (0 <? Track.tpb self)%float = true ->
  never_backwards self.
Proof.
  intros Hticks Hscale msg delta Hin.
  rewrite Forall_forall in Hticks.
  apply (_tick_to_sixteenth_nonneg self (msg_time msg)); auto.
Qed.

(** In a contiguous sequence of entities none of which ends before it
    starts, an earlier entity has ended when a later one starts. *)
Lemma contiguous_after (from : Z) (items : list entity) (to : Z) (j : nat)
    (y : entity) :
  contiguous from items to ->
  (forall x, x ∈ items -> entity_start x <= entity_end x) ->
  items !! j = Some y -> from <= entity_start y.
Proof.
  revert from j. induction items as [| x items IH]; intros from j; [done |].
  intros [Hx Hrest] Hall Hy. destruct j as [| j].
  - injection Hy as <-. lia.
  - assert (entity_start x <= entity_end x) by apply Hall, list_elem_of_here.
    assert (entity_end x <= entity_start y); [| lia].
    apply (IH _ j Hrest); [| exact Hy].
    intros z Hz. by apply Hall, list_elem_of_further.
Qed.

Lemma contiguous_ordered (from : Z) (items : list entity) (to : Z)
    (i j : nat) (x y : entity) :
  contiguous from items to ->
  (forall x, x ∈ items -> entity_start x <= entity_end x) ->
  (i < j)%nat -> items !! i = Some x -> items !! j = Some y ->
  entity_end x <= entity_start y.
Proof.
  revert from i j. induction items as [| z items IH]; intros from i j; [done |].
  intros [_ Hrest] Hall Hlt Hx Hy.
  assert (Hall' : forall x, x ∈ items -> entity_start x <= entity_end x)
    by (intros w Hw; by apply Hall, list_elem_of_further).
  destruct j as [| j]; [lia |]. destruct i as [| i].
  - injection Hx as <-. by apply (contiguous_after _ items to j).
  - apply (IH _ i j Hrest Hall'); [lia | exact Hx | exact Hy].
Qed.

(** C6 as stated fails: read with a speed multiplier of -1, the only line
    of [backwards_messages] starts at time -4. *)
Lemma C6_counterexample :
  ~ (forall self st line,
       Track.init backwards_messages 480 false (-1) = Ok self ->
       Track.loop self Track.start_state (Track.track self) = Ok st ->
       line ∈ Track.lines st ->
       gapless line /\ from_zero line /\ overlap_free line).
Proof.
  intros Hclaim.
  destruct (Hclaim {| Track.track := backwards_messages; Track.tpb := -480;
                      Track._disable_vel := false |}
              backwards_state backwards_line)
    as (_ & (x & Hx & Hstart) & _).
  - vm_compute. reflexivity.
  - vm_compute. reflexivity.
  - apply list_elem_of_here.
  - injection Hx as <-. discriminate Hstart.
Qed.

(** C6, amended: every line the loop leaves behind is contiguous; when no
    delta of the track quantizes to a negative number, its first entry
    starts at time 0 and no two of its notes overlap. *)
Theorem C6_lines_in_time (self : Track.t) (st : Track.state) (line : Line.t) :
  Track.loop self Track.start_state (Track.track self) = Ok st ->
  line ∈ Track.lines st ->
  gapless line /\
  (never_backwards self -> from_zero line /\ overlap_free line).
Proof.
  intros Hloop Hline.
  assert (Hok : line_ok line).
  { assert (Hall : Forall line_ok (Track.lines st))
      by (apply (loop_lines_ok self (Track.track self) Track.start_state);
          [apply Forall_nil; exact I | exact Hloop]).
    rewrite Forall_forall in Hall. by apply Hall. }
  destruct Hok as [Hne Hcont Hrests].
  split; [intros i x y; apply (contiguous_next _ _ _ _ _ _ Hcont) |].
  intros Hnever.
  assert (Hfw : forward st).
  { apply (loop_forward self Track.start_state); try done.
    split; simpl; [lia | | by intros ? ?%elem_of_nil].
    intros k i n (stack & Hstack & _). by rewrite lookup_empty in Hstack. }
  destruct (forward_lines st Hfw line Hline) as [Hstart Hnotes].
  rewrite Z.min_l in Hcont by exact Hstart.
  assert (Hall : forall x, x ∈ Line.items line ->
                           entity_start x <= entity_end x).
  { intros [n | r] Hx; simpl.
    - specialize (Hnotes n Hx). unfold Note.end_. lia.
    - specialize (Hrests r Hx). unfold Rest.end_. lia. }
  split.
  - unfold from_zero. destruct (Line.items line) as [| x items] eqn:E; [done |].
    exists x. split; [done |]. by apply (contiguous_first _ _ _ _ Hcont).
  - intros i j n m Hlt Hn Hm.
    apply (contiguous_ordered _ _ _ i j (ANote n) (ANote m)
             Hcont Hall Hlt Hn Hm).
Qed.

Lemma C6_lines_in_time_witness :
  Track.loop scenario_B_track Track.start_state (Track.track scenario_B_track)
    = Ok scenario_B_state /\
  scenario_B_line ∈ Track.lines scenario_B_state /\
  never_backwards scenario_B_track /\
  gapless scenario_B_line /\
  from_zero scenario_B_line /\
  overlap_free scenario_B_line.
Proof.
  assert (Hloop : Track.loop scenario_B_track Track.start_state
                    (Track.track scenario_B_track) = Ok scenario_B_state)
    by (vm_compute; reflexivity).
  assert (Hline : scenario_B_line ∈ Track.lines scenario_B_state)
    by apply list_elem_of_here.
  assert (Hnever : never_backwards scenario_B_track).
  { apply positive_scale_never_backwards; [| reflexivity].
    repeat constructor; simpl; lia. }
  destruct (C6_lines_in_time scenario_B_track scenario_B_state scenario_B_line
              Hloop Hline) as [Hgapless Hrest].
  destruct (Hrest Hnever) as [Hzero Hfree].
  done.
Defined.

(** ** Zero durations *)

(** C5 as stated fails: a rest of duration 0 is not dropped. *)
Lemma C5_counterexample :
  ~ ((forall n, Note.duration n = 0 -> Note.encode n = Ok "") /\
     (forall r, Rest.duration r = 0 -> Rest.encode r = Ok "")).
Proof.
  intros [_ Hrest]. specialize (Hrest (Rest.init 0 0) eq_refl).
  vm_compute in Hrest. discriminate Hrest.
Qed.

(** C5, amended: a note of duration 0 encodes to the empty string; a rest
    of duration 0 goes to the decomposition and fails its assertion. *)
Theorem C5_zero_duration (n : Note.t) (r : Rest.t) :
  Note.duration n = 0 -> Rest.duration r = 0 ->
  Note.encode n = Ok "" /\ Rest.encode r = Raise AssertionError.
Proof.
  intros Hn Hr. split.
  - unfold Note.encode. rewrite Hn. reflexivity.
  - unfold Rest.encode. rewrite Hr, _get_length_str_body. reflexivity.
Qed.

Lemma C5_zero_duration_witness :
  Note.duration (Note.grow (-4) scenario_A_note) = 0 /\
  Rest.duration (Rest.init 8 0) = 0 /\
  Note.encode (Note.grow (-4) scenario_A_note) = Ok "" /\
  Rest.encode (Rest.init 8 0) = Raise AssertionError.
Proof.
  split; [reflexivity | split; [reflexivity |]].
  apply (C5_zero_duration (Note.grow (-4) scenario_A_note) (Rest.init 8 0));
    reflexivity.
Defined.

(** ** Scenario A *)

(** C2 as stated fails: the bucket of velocity 100 is not 13. *)
Lemma C2_counterexample :
  ~ (Track._tick_to_sixteenth scenario_A_track 480 = Ok 4 /\
     Note.scale_velocity 100 = Ok 13 /\
     Note.encode scenario_A_note = Ok "V13O4C" /\
     Midi.convert scenario_A 120 false 1 = Ok "7ML@V13O4C;").
Proof.
  intros (_ & Hbucket & _). vm_compute in Hbucket. discriminate Hbucket.
Qed.

(** C2, amended: one beat is 4 sixteenths; [100 * (16/128)] is 12.5, which
    rounds to the even 12, the value that prints no velocity; the token is
    [O4C] and the length of 4 sixteenths, the document that token between
    the header and the semicolon. *)
Theorem C2_scenario_A :
  Track.init (merged_tracks scenario_A) (ticks_per_beat scenario_A) false 1
    = Ok scenario_A_track /\
  Track._tick_to_sixteenth scenario_A_track 480 = Ok 4 /\
  Note.scale_velocity 100 = Ok 12 /\
  Track.loop scenario_A_track Track.start_state (Track.track scenario_A_track)
    = Ok scenario_A_state /\
  exists length,
    Note._get_length_str "C" 4 = Ok length /\
    Note.encode scenario_A_note = Ok ("O4C" +:+ length) /\
    Midi.convert scenario_A 120 false 1
      = Ok ("7ML@" +:+ "O4C" +:+ length +:+ ";").
Proof.
  assert (Hinit : Track.init (merged_tracks scenario_A)
                    (ticks_per_beat scenario_A) false 1 = Ok scenario_A_track)
    by (vm_compute; reflexivity).
  assert (Hloop : Track.loop scenario_A_track Track.start_state
                    (Track.track scenario_A_track) = Ok scenario_A_state)
    by (vm_compute; reflexivity).
  split; [exact Hinit |].
  split; [vm_compute; reflexivity |].
  split; [vm_compute; reflexivity |].
  split; [exact Hloop |].
  destruct (_get_length_str_returns "C" 4) as [length Hlength]; [lia |].
  exists length. split; [exact Hlength |].
  assert (Hnote : Note.encode scenario_A_note = Ok ("O4C" +:+ length)).
  { unfold Note.encode. simpl. rewrite Hlength. reflexivity. }
  split; [exact Hnote |].
  unfold Midi.convert, Midi.init. rewrite Hinit, !bind_Ok_l.
  unfold Midi.encode, Track.encode. cbn [Midi.track Midi.tempo].
  rewrite Hloop, bind_Ok_l.
  unfold Track.encode_lines, Line.encode, scenario_A_state.
  cbn [Track.lines Line.items mapM entity_encode].
  rewrite Hnote. reflexivity.
Qed.

(** ** The score *)

Lemma loop_app (self : Track.t) (st : Track.state) (pre post : list Message) :
  Track.loop self st (pre ++ post) =
  st' ← Track.loop self st pre; Track.loop self st' post.
Proof.
  revert st. induction pre as [| msg pre IH]; intros st; [reflexivity |].
  simpl. destruct (Track.step self st msg) as [st1 | e]; [apply IH | reflexivity].
Qed.

Lemma mapM_returns {A B : Type} (f : A -> result B) (l : list A) :
  (forall x, x ∈ l -> exists y, f x = Ok y) ->
  exists ys, mapM f l = Ok ys /\ Forall2 (fun x y => f x = Ok y) l ys.
Proof.
  induction l as [| x l IH]; intros Hall.
  - exists []. split; [reflexivity | constructor].
  - destruct (Hall x) as [y Hy]; [apply list_elem_of_here |].
    destruct IH as (ys & Hys & Hall2);
      [intros z Hz; by apply Hall, list_elem_of_further |].
    exists (y :: ys). split; [| by constructor].
    simpl. rewrite Hy, bind_Ok_l, Hys. reflexivity.
Qed.

(** A note always encodes: to nothing when it has no duration. *)
Lemma Note_encode_returns (n : Note.t) : exists s, Note.encode n = Ok s.
Proof.
  unfold Note.encode. destruct (Z.leb_spec (Note.duration n) 0); [eauto |].
  destruct (_get_length_str_returns (Note.pitch n) (Note.duration n))
    as [s ->]; [lia | eauto].
Qed.

Lemma Line_encode_returns (line : Line.t) :
  line_ok line -> exists s, Line.encode line = Ok s.
Proof.
  intros [_ _ Hrests]. unfold Line.encode.
  destruct (mapM_returns entity_encode (Line.items line)) as (parts & -> & _);
    [| eauto].
  intros [n | r] Hin; simpl; [apply Note_encode_returns |].
  unfold Rest.encode.
  destruct (_get_length_str_returns (Rest.pitch r) (Rest.duration r))
    as [s ->]; [specialize (Hrests r Hin); lia | eauto].
Qed.

Lemma Line_append_items (line : Line.t) (note : Note.t) :
  Line.items line `prefix_of` Line.items (Line.append line note).
Proof.
  unfold Line.append. destruct (_ <? _); simpl.
  - rewrite <- app_assoc. by eexists.
  - by eexists.
Qed.

Lemma turn_extends (self : Track.t) (st : Track.state) (msg : Message)
    (durations : gmap Z (list Note.t)) (st' : Track.state) :
  turn self st msg durations st' -> extends (Track.lines st) (Track.lines st').
Proof.
  intros [_ _ -> | note _ _ _ -> | stack note lines i _ _ _ Hline ->];
    try (intros j line Hj; by exists line).
  intros j line Hj.
  assert (Hj' : lines !! j = Some line).
  { destruct (_get_available_line_spec _ _ _ _ Hline)
      as [(-> & _) | (-> & _)]; [done | by apply lookup_app_l_Some]. }
  rewrite list_lookup_alter. destruct (decide (i = j)) as [<- | Hne].
  - rewrite Hj'. eexists. split; [done | apply Line_append_items].
  - by exists line.
Qed.

Lemma loop_extends (self : Track.t) (msgs : list Message)
    (st st' : Track.state) :
  Track.loop self st msgs = Ok st' ->
  extends (Track.lines st) (Track.lines st').
Proof.
  apply (loop_invariant (fun st' => extends (Track.lines st) (Track.lines st'))).
  - intros st0 msg st1 _ Hext (delta & _ & _ & _ & Hturn)%step_Ok.
    intros i line (line0 & Hline0 & Hpre0)%Hext.
    destruct (turn_extends _ _ _ _ _ Hturn i line0 Hline0)
      as (line1 & Hline1 & Hpre1).
    exists line1. split; [done | by etrans].
  - intros i line Hi. by exists line.
Qed.

(** Lines that are in order all encode, and so does their list. *)
Lemma encode_lines_returns (lines : list Line.t) :
  Forall line_ok lines ->
  exists tokens : list string,
    Forall2 (fun line token => Line.encode line = Ok token) lines tokens /\
    Track.encode_lines lines = Ok (join "," tokens).
Proof.
  intros Hok. rewrite Forall_forall in Hok.
  destruct (mapM_returns Line.encode lines) as (tokens & Htokens & Hall);
    [intros line Hline; by apply Line_encode_returns, Hok |].
  exists tokens. split; [exact Hall |].
  unfold Track.encode_lines. rewrite Htokens. reflexivity.
Qed.

(** C7: when the loop completes, every line encodes, and the score is the
    header, the tempo tag unless the tempo is 120, the tokens of the lines
    joined by commas, and the semicolon; the lines stand in the order of
    their creation, each at the position it was given. *)
Theorem C7_score_format (self : Midi.t) (st : Track.state) :
  Track.loop (Midi.track self) Track.start_state
    (Track.track (Midi.track self)) = Ok st ->
  (exists tokens : list string,
     Forall2 (fun line token => Line.encode line = Ok token)
       (Track.lines st) tokens /\
     Track.encode (Midi.track self) = Ok (join "," tokens) /\
     Midi.encode self =
       Ok ("7ML@" +:+ tempo_tag (Midi.tempo self) +:+ join "," tokens +:+ ";")) /\
  (forall pre post st0,
     Track.track (Midi.track self) = pre ++ post ->
     Track.loop (Midi.track self) Track.start_state pre = Ok st0 ->
     extends (Track.lines st0) (Track.lines st)).
Proof.
  intros Hloop. split.
  - assert (Hok : Forall line_ok (Track.lines st)).
    { apply (loop_lines_ok (Midi.track self) (Track.track (Midi.track self))
               Track.start_state); [apply Forall_nil; exact I | exact Hloop]. }
    destruct (encode_lines_returns _ Hok) as (tokens & Hall & Htokens).
    exists tokens. split; [exact Hall |].
    assert (Htrack : Track.encode (Midi.track self) = Ok (join "," tokens)).
    { unfold Track.encode. rewrite Hloop, bind_Ok_l, Htokens. reflexivity. }
    split; [exact Htrack |].
    unfold Midi.encode, tempo_tag. rewrite Htrack, bind_Ok_l.
    destruct (Z.eqb_spec (Midi.tempo self) 120) as [-> | Hne].
    + reflexivity.
    + rewrite decide_False by exact Hne. reflexivity.
  - intros pre post st0 Hsplit Hpre.
    rewrite Hsplit, loop_app, Hpre, bind_Ok_l in Hloop.
    apply (loop_extends _ _ _ _ Hloop).
Qed.

Lemma C7_score_format_witness :
  Track.loop scenario_B_track Track.start_state (Track.track scenario_B_track)
    = Ok scenario_B_state /\
  (exists tokens : list string,
     Forall2 (fun line token => Line.encode line = Ok token)
       (Track.lines scenario_B_state) tokens /\
     Track.encode scenario_B_track = Ok (join "," tokens) /\
     Midi.encode {| Midi.tempo := 90; Midi.track := scenario_B_track |} =
       Ok ("7ML@" +:+ tempo_tag 90 +:+ join "," tokens +:+ ";")) /\
  (forall pre post st0,
     Track.track scenario_B_track = pre ++ post ->
     Track.loop scenario_B_track Track.start_state pre = Ok st0 ->
     extends (Track.lines st0) (Track.lines scenario_B_state)).
Proof.
  assert (Hloop : Track.loop scenario_B_track Track.start_state
                    (Track.track scenario_B_track) = Ok scenario_B_state)
    by (vm_compute; reflexivity).
  split; [exact Hloop |].
  exact (C7_score_format {| Midi.tempo := 90; Midi.track := scenario_B_track |}
           scenario_B_state Hloop).
Defined.

(** ** A note-off with nothing to close *)

Lemma step_stray (self : Track.t) (st : Track.state) (msg : Message)
    (delta : Z) :
  Track._tick_to_sixteenth self (msg_time msg) = Ok delta ->
  is_note_off msg ->
  Track.durations st !! msg_note msg = None \/
  Track.durations st !! msg_note msg = Some [] ->
  Track.step self st msg =
    Raise match Track.durations st !! msg_note msg with
          | None => KeyError
          | Some _ => IndexError
          end.
Proof.
  intros Hdelta Hoff Hempty. unfold Track.step.
  rewrite Hdelta, bind_Ok_l, lookup_fmap.
  assert (Hnote : bool_decide (msg_type_of msg ∈ [note_on; note_off]) = true).
  { apply bool_decide_eq_true.
    destruct Hoff as [-> | [-> _]];
      [apply list_elem_of_further, list_elem_of_here | apply list_elem_of_here]. }
  assert (Hnot_on : bool_decide (msg_type_of msg = note_on)
                    && (0 <? msg_velocity msg) = false).
  { destruct Hoff as [-> | [-> Hvel]]; [reflexivity |].
    destruct (Z.ltb_spec 0 (msg_velocity msg)); [lia | reflexivity]. }
  rewrite Hnote, Hnot_on.
  destruct Hempty as [-> | ->]; reflexivity.
Qed.

(** C3 as stated fails: the error that stops the conversion of a lone
    note-off is a [KeyError]; none is named [MalformedEventStream]. *)
Lemma C3_counterexample :
  Track.encode stray_track = Raise KeyError /\
  ~ exists e, Track.encode stray_track = Raise e /\
              exn_name e = "MalformedEventStream".
Proof.
  assert (Hraise : Track.encode stray_track = Raise KeyError)
    by (vm_compute; reflexivity).
  split; [exact Hraise |].
  intros (e & He & Hname). rewrite Hraise in He.
  injection He as <-. discriminate Hname.
Qed.

(** C3, amended: a note-off for a pitch with no note sounding stops the
    conversion with the error of the failed stack access, [KeyError] when
    the pitch has had no note-on, [IndexError] when its stack has been
    emptied, and no string is returned. *)
Theorem C3_stray_note_off (self : Midi.t) (pre post : list Message)
    (msg : Message) (st : Track.state) (delta : Z) :
  Track.track (Midi.track self) = pre ++ msg :: post ->
  Track.loop (Midi.track self) Track.start_state pre = Ok st ->
  Track._tick_to_sixteenth (Midi.track self) (msg_time msg) = Ok delta ->
  is_note_off msg ->
  Track.durations st !! msg_note msg = None \/
  Track.durations st !! msg_note msg = Some [] ->
  exists e,
    e = match Track.durations st !! msg_note msg with
        | None => KeyError
        | Some _ => IndexError
        end /\
    Track.encode (Midi.track self) = Raise e /\
    Midi.encode self = Raise e.
Proof.
  intros Htrack Hpre Hdelta Hoff Hempty.
  eexists. split; [reflexivity |].
  assert (Hraise : Track.encode (Midi.track self) =
                   Raise match Track.durations st !! msg_note msg with
                         | None => KeyError
                         | Some _ => IndexError
                         end).
  { unfold Track.encode. rewrite Htrack, loop_app, Hpre, bind_Ok_l.
    simpl. rewrite (step_stray _ _ _ _ Hdelta Hoff Hempty). reflexivity. }
  split; [exact Hraise |].
  unfold Midi.encode. rewrite Hraise. reflexivity.
Qed.

Lemma C3_stray_note_off_witness :
  Track.track (Midi.track stray_score) =
    merged_tracks scenario_A
    ++ message note_on 60 0 0 :: [message note_on 62 90 0] /\
  Track.loop (Midi.track stray_score) Track.start_state
    (merged_tracks scenario_A) = Ok scenario_A_state /\
  Track._tick_to_sixteenth (Midi.track stray_score) 0 = Ok 0 /\
  is_note_off (message note_on 60 0 0) /\
  (Track.durations scenario_A_state !! 60 = None \/
   Track.durations scenario_A_state !! 60 = Some []) /\
  exists e,
    e = IndexError /\
    Track.encode (Midi.track stray_score) = Raise e /\
    Midi.encode stray_score = Raise e.
Proof.
  assert (Hpre : Track.loop (Midi.track stray_score) Track.start_state
                   (merged_tracks scenario_A) = Ok scenario_A_state)
    by (vm_compute; reflexivity).
  assert (Hdelta : Track._tick_to_sixteenth (Midi.track stray_score) 0 = Ok 0)
    by (vm_compute; reflexivity).
  assert (Hoff : is_note_off (message note_on 60 0 0))
    by (right; split; [reflexivity | simpl; lia]).
  assert (Hempty : Track.durations scenario_A_state !! 60 = None \/
                   Track.durations scenario_A_state !! 60 = Some [])
    by (right; reflexivity).
  split; [reflexivity |].
  split; [exact Hpre | split; [exact Hdelta | split; [exact Hoff |]]].
  split; [exact Hempty |].
  exact (C3_stray_note_off stray_score (merged_tracks scenario_A)
           [message note_on 62 90 0] (message note_on 60 0 0)
           scenario_A_state 0 eq_refl Hpre Hdelta Hoff Hempty).
Defined.

(** ** Object identities *)

Lemma turn_identities (self : Track.t) (st : Track.state) (msg : Message)
    (delta : Z) (st' : Track.state) :
  Track.seen st' = S (Track.seen st) ->
  turn self st msg (grown delta (Track.durations st)) st' ->
  identities st -> identities st'.
Proof.
  intros Hseen Hturn [Hsnd Hplc Huniq Hapart].
  set (G := grown delta (Track.durations st)) in *.
  assert (HGsnd : forall k i n, sounding G k i n ->
                    (Note.oid n < Track.seen st)%nat).
  { intros k i n (n0 & Hn0 & ->)%sounding_grown. apply (Hsnd k i n0 Hn0). }
  assert (HGuniq : forall k1 i1 n1 k2 i2 n2,
             sounding G k1 i1 n1 -> sounding G k2 i2 n2 ->
             Note.oid n1 = Note.oid n2 -> k1 = k2 /\ i1 = i2).
  { intros k1 i1 n1 k2 i2 n2 (m1 & Hm1 & ->)%sounding_grown
      (m2 & Hm2 & ->)%sounding_grown. apply (Huniq _ _ _ _ _ _ Hm1 Hm2). }
  assert (HGapart : forall k i n m, sounding G k i n ->
             placed (Track.lines st) m -> Note.oid n <> Note.oid m).
  { intros k i n m (n0 & Hn0 & ->)%sounding_grown. apply (Hapart _ _ _ _ Hn0). }
  destruct Hturn as [_ Hdur Hl | note _ Hnote Hdur Hl
                    | stack note lines i _ Hstack Hdur Hline Hl].
  - split; rewrite ?Hdur, ?Hl, ?Hseen.
    + intros k i n H%HGsnd. lia.
    + intros n H%Hplc. lia.
    + exact HGuniq.
    + exact HGapart.
  - apply Note_init_Ok in Hnote as (Hoid & _).
    split; rewrite ?Hdur, ?Hl, ?Hseen.
    + intros k i n [H%HGsnd | (_ & _ & ->)]%sounding_push; lia.
    + intros n H%Hplc. lia.
    + intros k1 i1 n1 k2 i2 n2
        [H1 | (-> & -> & ->)]%sounding_push [H2 | (-> & -> & ->)]%sounding_push
        Heq.
      * apply (HGuniq _ _ _ _ _ _ H1 H2 Heq).
      * apply HGsnd in H1. lia.
      * apply HGsnd in H2. lia.
      * done.
    + intros k i n m [H | (_ & _ & ->)]%sounding_push Hm.
      * apply (HGapart _ _ _ _ H Hm).
      * apply Hplc in Hm. lia.
  - pose proof (sounding_top _ _ _ _ Hstack) as Htop.
    split; rewrite ?Hdur, ?Hl, ?Hseen.
    + intros k j n [H%HGsnd _]%(sounding_pop _ _ _ _ _ _ _ Hstack). lia.
    + intros n [H%Hplc | ->]%(placed_put _ _ _ _ _ Hline); [lia |].
      apply HGsnd in Htop. lia.
    + intros k1 i1 n1 k2 i2 n2
        [H1 _]%(sounding_pop _ _ _ _ _ _ _ Hstack)
        [H2 _]%(sounding_pop _ _ _ _ _ _ _ Hstack).
      apply (HGuniq _ _ _ _ _ _ H1 H2).
    + intros k j n m [H Hnot]%(sounding_pop _ _ _ _ _ _ _ Hstack)
        [Hm | ->]%(placed_put _ _ _ _ _ Hline).
      * apply (HGapart _ _ _ _ H Hm).
      * intros Heq. apply Hnot. apply (HGuniq _ _ _ _ _ _ H Htop Heq).
Qed.

Lemma start_identities : identities Track.start_state.
Proof.
  split; simpl.
  - intros k i n (stack & Hstack & _). by rewrite lookup_empty in Hstack.
  - intros n (line & []%elem_of_nil & _).
  - intros k1 i1 n1 k2 i2 n2 (stack & Hstack & _).
    by rewrite lookup_empty in Hstack.
  - intros k i n m (stack & Hstack & _). by rewrite lookup_empty in Hstack.
Qed.

Lemma loop_identities (self : Track.t) (msgs : list Message)
    (st st' : Track.state) :
  identities st -> Track.loop self st msgs = Ok st' -> identities st'.
Proof.
  apply (loop_invariant identities).
  intros st0 msg st1 _ Hids (delta & _ & _ & Hseen & Hturn)%step_Ok.
  apply (turn_identities _ _ _ _ _ Hseen Hturn Hids).
Qed.

Lemma loop_seen (self : Track.t) (msgs : list Message) (st st' : Track.state) :
  Track.loop self st msgs = Ok st' ->
  Track.seen st' = (Track.seen st + length msgs)%nat.
Proof.
  revert st. induction msgs as [| msg msgs IH]; intros st; simpl.
  - intros [= <-]. lia.
  - intros (st1 & (delta & _ & _ & Hseen & _)%step_Ok & Hloop%IH)%bind_Ok.
    lia.
Qed.

(** ** A note that is never closed *)

Lemma extends_placed (old new : list Line.t) (n : Note.t) :
  extends old new -> placed old n -> placed new n.
Proof.
  intros Hext (line & (i & Hi)%list_elem_of_lookup & Hn).
  destruct (Hext i line Hi) as (line' & Hi' & Hpre).
  exists line'. split; [by eapply list_elem_of_lookup_2 |].
  destruct Hpre as [more ->]. apply elem_of_app. by left.
Qed.

(** The loop with and without one sounding note, of identity [ident]. *)
Section Mute.

Variable self : Track.t.
Variable ident : nat.

Lemma muted_grown (delta : Z) (da db : gmap Z (list Note.t)) :
  muted ident da db -> muted ident (grown delta da) (grown delta db).
Proof.
  intros (k & lo & x & hi & Hoid & Ha & Hother & Hb).
  exists k, (Note.grow delta <$> lo), (Note.grow delta x),
    (Note.grow delta <$> hi).
  unfold grown. split; [exact Hoid | split; [| split]].
  - rewrite lookup_fmap, Ha. simpl. by rewrite fmap_app.
  - intros k' Hne. by rewrite !lookup_fmap, Hother.
  - rewrite lookup_fmap.
    destruct Hb as [-> | (-> & -> & ->)]; [left | right; done].
    simpl. by rewrite fmap_app.
Qed.

Lemma muted_push (da db : gmap Z (list Note.t)) (q : Z)
    (n : Note.t) :
  muted ident da db ->
  muted ident (<[q := default [] (da !! q) ++ [n]]> da)
    (<[q := default [] (db !! q) ++ [n]]> db).
Proof.
  intros (k & lo & x & hi & Hoid & Ha & Hother & Hb).
  destruct (decide (q = k)) as [-> | Hne].
  - exists k, lo, x, (hi ++ [n]).
    split; [exact Hoid | split; [| split]].
    + rewrite lookup_insert_eq, Ha. simpl. by rewrite <- app_assoc.
    + intros k' Hk'. rewrite !lookup_insert_ne by done. by apply Hother.
    + left. rewrite lookup_insert_eq.
      destruct Hb as [-> | (-> & -> & ->)]; simpl; [| done].
      by rewrite <- app_assoc.
  - exists k, lo, x, hi.
    split; [exact Hoid | split; [| split]].
    + by rewrite lookup_insert_ne.
    + intros k' Hk'. destruct (decide (q = k')) as [<- | Hq].
      * rewrite !lookup_insert_eq. by rewrite Hother.
      * rewrite !lookup_insert_ne by done. by apply Hother.
    + by rewrite lookup_insert_ne.
Qed.

(** A pop either takes the muted note itself, or takes the same note on
    both sides. *)
Lemma muted_pop (da db : gmap Z (list Note.t)) (q : Z)
    (stack : list Note.t) (n : Note.t) :
  muted ident da db ->
  da !! q = Some (stack ++ [n]) ->
  Note.oid n = ident \/
  exists stack',
    db !! q = Some (stack' ++ [n]) /\
    muted ident (<[q := stack]> da) (<[q := stack']> db).
Proof.
  intros (k & lo & x & hi & Hoid & Ha & Hother & Hb) Hq.
  destruct (decide (q = k)) as [-> | Hne].
  - rewrite Ha in Hq. injection Hq as Hq.
    destruct hi as [| y hi _] using rev_ind.
    + apply app_inj_tail in Hq as [_ <-]. by left.
    + change (lo ++ x :: hi ++ [y]) with (lo ++ (x :: hi) ++ [y]) in Hq.
      rewrite app_assoc in Hq. apply app_inj_tail in Hq as [<- <-].
      right. exists (lo ++ hi). split.
      * destruct Hb as [-> | (_ & _ & Hnil)]; [by rewrite app_assoc |].
        by destruct hi.
      * exists k, lo, x, hi. split; [exact Hoid | split; [| split]].
        -- by rewrite lookup_insert_eq.
        -- intros k' Hk'. rewrite !lookup_insert_ne by done. by apply Hother.
        -- left. by rewrite lookup_insert_eq.
  - right. exists stack. split; [by rewrite Hother |].
    exists k, lo, x, hi. split; [exact Hoid | split; [| split]].
    + by rewrite lookup_insert_ne.
    + intros k' Hk'. destruct (decide (q = k')) as [<- | Hq'].
      * by rewrite !lookup_insert_eq.
      * rewrite !lookup_insert_ne by done. by apply Hother.
    + by rewrite lookup_insert_ne.
Qed.

(** The loop run on, with and without a sounding note that is never
    closed, builds the same lines. *)
Lemma mute_simulation (msgs : list Message)
    (sa sb st : Track.state) :
  Track.time sb = Track.time sa ->
  Track.seen sb = Track.seen sa ->
  Track.lines sb = Track.lines sa ->
  muted ident (Track.durations sa) (Track.durations sb) ->
  Track.loop self sa msgs = Ok st ->
  (forall m, placed (Track.lines st) m -> Note.oid m <> ident) ->
  exists st', Track.loop self sb msgs = Ok st' /\
              Track.lines st' = Track.lines st.
Proof.
  revert sa sb. induction msgs as [| msg msgs IH];
    intros sa sb Htime Hseen Hlines Hmuted; simpl.
  - intros [= <-] _. eauto.
  - intros (sa1 & Hstep & Hloop)%bind_Ok Hfinal.
    apply step_Ok in Hstep as (delta & Hdelta & Htime1 & Hseen1 & Hturn).
    apply (muted_grown delta) in Hmuted.
    assert (Hgo : forall db1,
               turn self sb msg (grown delta (Track.durations sb))
                 {| Track.time := Track.time sa1; Track.durations := db1;
                    Track.lines := Track.lines sa1;
                    Track.seen := Track.seen sa1 |} ->
               muted ident (Track.durations sa1) db1 ->
               exists st', (Track.step self sb msg ≫= fun st1 =>
                            Track.loop self st1 msgs) = Ok st' /\
                           Track.lines st' = Track.lines st).
    { intros db1 Hturn1 Hmuted1.
      assert (Hstep1 : Track.step self sb msg =
                Ok {| Track.time := Track.time sa1; Track.durations := db1;
                      Track.lines := Track.lines sa1;
                      Track.seen := Track.seen sa1 |}).
      { apply step_Ok. exists delta. simpl.
        rewrite Htime, Hseen. done. }
      rewrite Hstep1, bind_Ok_l.
      apply (IH sa1); simpl; done. }
    destruct Hturn as [Hother Hdur Hl | note Hon Hnote Hdur Hl
                      | stack note lines i Hoff Hstack Hdur Hline Hl].
    + apply (Hgo (grown delta (Track.durations sb))).
      * apply turn_other; simpl; [done | done | congruence].
      * by rewrite Hdur.
    + apply (Hgo (<[msg_note msg :=
                     default [] (grown delta (Track.durations sb) !! msg_note msg)
                     ++ [note]]> (grown delta (Track.durations sb)))).
      * apply (turn_on _ _ _ _ _ note); simpl;
          [done | by rewrite Hseen | done | congruence].
      * rewrite Hdur. by apply muted_push.
    + destruct (muted_pop _ _ _ _ _ Hmuted Hstack)
        as [Hoid | (stack' & Hstack' & Hmuted')].
      * exfalso. apply (Hfinal note); [| exact Hoid].
        apply (extends_placed (Track.lines sa1));
          [apply (loop_extends _ _ _ _ Hloop) |].
        rewrite Hl. apply (placed_put _ _ _ _ _ Hline). by right.
      * apply (Hgo (<[msg_note msg := stack']>
                      (grown delta (Track.durations sb)))).
        -- apply (turn_off _ _ _ _ _ stack' note lines i); simpl;
             [done | done | done | by rewrite Hlines | done].
        -- by rewrite Hdur.
Qed.

End Mute.

Lemma loop_without (ident : nat) (self : Track.t) (st : Track.state)
    (msgs : list Message) :
  Track.loop (without ident self) st msgs = Track.loop self st msgs.
Proof.
  revert st. induction msgs as [| msg msgs IH]; intros st; [reflexivity |].
  simpl. change (Track.step (without ident self) st msg)
    with (Track.step self st msg).
  destruct (Track.step self st msg); [apply IH | reflexivity].
Qed.

(** An identity that no sounding note carries once its message has been
    consumed is carried by none later. *)
Lemma never_sounding (self : Track.t) (ident : nat) (msgs : list Message)
    (st st' : Track.state) :
  (ident < Track.seen st)%nat ->
  (forall k j m, sounding (Track.durations st) k j m -> Note.oid m <> ident) ->
  Track.loop self st msgs = Ok st' ->
  forall k j m, sounding (Track.durations st') k j m -> Note.oid m <> ident.
Proof.
  intros Hseen Hnone Hloop.
  apply (loop_invariant
           (fun st => (ident < Track.seen st)%nat /\
              forall k j m, sounding (Track.durations st) k j m ->
                            Note.oid m <> ident)
           self msgs) with (st := st); [| done | done].
  clear. intros st msg st' _ [Hseen Hnone]
    (delta & _ & _ & Hseen' & Hturn)%step_Ok.
  split; [lia |].
  assert (HG : forall k j m,
             sounding (grown delta (Track.durations st)) k j m ->
             Note.oid m <> ident).
  { intros k j m (m0 & Hm0 & ->)%sounding_grown. apply (Hnone k j m0 Hm0). }
  destruct Hturn as [_ -> _ | note _ Hnote -> _ | stack note lines i _ Hstack -> _ _].
  - exact HG.
  - intros k j m [H | (_ & _ & ->)]%sounding_push; [by eapply HG |].
    apply Note_init_Ok in Hnote as (-> & _). lia.
  - intros k j m [H _]%(sounding_pop _ _ _ _ _ _ _ Hstack). by eapply HG.
Qed.

(** C9: a note still sounding when the track ends was opened by a note-on,
    is handed over at no note-off, and is in no line; the encoding returns,
    and returns the same string without that note-on. *)
Theorem C9_unclosed_note_is_dropped (self : Track.t) (st : Track.state)
    (k : Z) (i : nat) (n : Note.t) :
  Track.loop self Track.start_state (Track.track self) = Ok st ->
  sounding (Track.durations st) k i n ->
  (exists msg, Track.track self !! Note.oid n = Some msg /\ is_note_on msg) /\
  (forall pre msg post st0,
     Track.track self = pre ++ msg :: post ->
     Track.loop self Track.start_state pre = Ok st0 ->
     ~ hands_over self st0 msg (Note.oid n)) /\
  (forall m, placed (Track.lines st) m -> Note.oid m <> Note.oid n) /\
  (exists out, Track.encode self = Ok out /\
               Track.encode (without (Note.oid n) self) = Ok out).
Proof.
  intros Hloop Hn.
  pose proof (loop_identities _ _ _ _ start_identities Hloop) as Hids.
  assert (Hplaced : forall m, placed (Track.lines st) m ->
                              Note.oid m <> Note.oid n).
  { intros m Hm Heq. by apply (ids_apart st Hids k i n m Hn Hm). }
  assert (Hlt : (Note.oid n < length (Track.track self))%nat).
  { pose proof (ids_sounding st Hids k i n Hn) as Hlt.
    rewrite (loop_seen _ _ _ _ Hloop) in Hlt. exact Hlt. }
  destruct (lookup_lt_is_Some_2 _ _ Hlt) as [msg Hmsg].
  pose proof (take_drop_middle _ _ _ Hmsg) as Hsplit.
  set (pre := take (Note.oid n) (Track.track self)) in *.
  set (post := drop (S (Note.oid n)) (Track.track self)) in *.
  assert (Hpre_len : length pre = Note.oid n)
    by (unfold pre; rewrite length_take; lia).
  pose proof Hloop as Hrun.
  rewrite <- Hsplit, loop_app in Hrun.
  apply bind_Ok in Hrun as (st0 & Hpre & Hrun). simpl in Hrun.
  apply bind_Ok in Hrun as (st1 & Hstep & Hpost).
  pose proof (loop_identities _ _ _ _ start_identities Hpre) as Hids0.
  pose proof (loop_seen _ _ _ _ Hpre) as Hseen0. simpl in Hseen0.
  pose proof Hstep as Hstep'.
  apply step_Ok in Hstep' as (delta & Hdelta & Htime & Hseen & Hturn).
  assert (HG : forall q j m,
             sounding (grown delta (Track.durations st0)) q j m ->
             Note.oid m <> Note.oid n).
  { intros q j m (m0 & Hm0 & ->)%sounding_grown.
    pose proof (ids_sounding st0 Hids0 q j m0 Hm0). simpl. lia. }
  assert (Hon : is_note_on msg /\
                exists note,
                  Note.oid note = Note.oid n /\
                  Track.lines st1 = Track.lines st0 /\
                  Track.durations st1 =
                    <[msg_note msg :=
                        default [] (grown delta (Track.durations st0)
                                      !! msg_note msg) ++ [note]]>
                      (grown delta (Track.durations st0))).
  { destruct Hturn as [_ Hdur _ | note Hon Hnote Hdur Hl
                      | stack note lines j _ Hstack Hdur _ _].
    - exfalso.
      apply (never_sounding self (Note.oid n) post st1 st) with k i n;
        [lia | by rewrite Hdur | done | done | done].
    - split; [exact Hon |]. exists note.
      apply Note_init_Ok in Hnote as (-> & _). split; [lia | done].
    - exfalso.
      apply (never_sounding self (Note.oid n) post st1 st) with k i n;
        [lia | | done | done | done].
      rewrite Hdur.
      intros q j' m [H _]%(sounding_pop _ _ _ _ _ _ _ Hstack). by eapply HG. }
  destruct Hon as (Hon & note & Hoid & Hlines1 & Hdur1).
  split; [by exists msg |].
  split; [| split; [exact Hplaced |]].
  - (* handed over at no note-off *)
    intros pre' msg' post' st' Hsplit' Hpre'
      (delta' & stack & note' & Hdelta' & Hoff & Hstack & Hoid').
    pose proof Hloop as Hrun.
    rewrite Hsplit', loop_app, Hpre', bind_Ok_l in Hrun. simpl in Hrun.
    apply bind_Ok in Hrun as (st'' & Hstep'' & Hpost'').
    apply step_Ok in Hstep'' as (delta'' & Hdelta'' & _ & _ & Hturn'').
    rewrite Hdelta' in Hdelta''. injection Hdelta'' as <-.
    apply (Hplaced note'); [| exact Hoid'].
    apply (extends_placed (Track.lines st''));
      [apply (loop_extends _ _ _ _ Hpost'') |].
    destruct Hturn'' as [Hother _ _ | ? [Hty Hvel] _ _ _
                        | stack0 note0 lines j _ Hstack0 _ Hline ->].
    + destruct Hoff as [? | [? _]]; congruence.
    + destruct Hoff as [? | [_ ?]]; [congruence | lia].
    + rewrite Hstack in Hstack0. injection Hstack0 as Heq.
      apply app_inj_tail in Heq as [_ <-].
      apply (placed_put _ _ _ _ _ Hline). by right.
  - (* the output without the note-on *)
    set (sb1 := {| Track.time := Track.time st1;
                   Track.durations := grown delta (Track.durations st0);
                   Track.lines := Track.lines st0;
                   Track.seen := Track.seen st1 |}).
    assert (Hsilent : Track.step self st0 (silence msg) = Ok sb1).
    { apply step_Ok. exists delta. simpl.
      split; [exact Hdelta | split; [exact Htime | split; [exact Hseen |]]].
      by apply turn_other. }
    destruct (mute_simulation self (Note.oid n) post st1 sb1 st)
      as (stb & Hloopb & Hlinesb); simpl; try done.
    { exists (msg_note msg),
        (default [] (grown delta (Track.durations st0) !! msg_note msg)),
        note, [].
      split; [exact Hoid | split; [| split]].
      - by rewrite Hdur1, lookup_insert_eq.
      - intros q Hq. by rewrite Hdur1, lookup_insert_ne.
      - destruct (grown delta (Track.durations st0) !! msg_note msg);
          simpl; [left; by rewrite app_nil_r | by right]. }
    assert (Hok : Forall line_ok (Track.lines st)).
    { apply (loop_lines_ok self (Track.track self) Track.start_state);
        [apply Forall_nil; exact I | exact Hloop]. }
    destruct (encode_lines_returns _ Hok) as (tokens & _ & Htokens).
    exists ("" +:+ join "," tokens). split.
    { unfold Track.encode. rewrite Hloop, bind_Ok_l, Htokens. reflexivity. }
    unfold Track.encode.
    change (Track.track (without (Note.oid n) self))
      with (alter silence (Note.oid n) (Track.track self)).
    rewrite <- Hsplit at 1.
    rewrite alter_app_r_alt, Hpre_len, Nat.sub_diag by lia. simpl.
    rewrite loop_without, loop_app, Hpre, bind_Ok_l. simpl.
    rewrite Hsilent, bind_Ok_l, Hloopb, bind_Ok_l, Hlinesb, Htokens.
    reflexivity.
Qed.

Lemma C9_unclosed_note_is_dropped_witness :
  Track.loop unclosed_track Track.start_state (Track.track unclosed_track)
    = Ok unclosed_state /\
  sounding (Track.durations unclosed_state) 62 0 unclosed_note /\
  (exists msg, Track.track unclosed_track !! Note.oid unclosed_note = Some msg /\
               is_note_on msg) /\
  (forall pre msg post st0,
     Track.track unclosed_track = pre ++ msg :: post ->
     Track.loop unclosed_track Track.start_state pre = Ok st0 ->
     ~ hands_over unclosed_track st0 msg (Note.oid unclosed_note)) /\
  (forall m, placed (Track.lines unclosed_state) m ->
             Note.oid m <> Note.oid unclosed_note) /\
  (exists out,
     Track.encode unclosed_track = Ok out /\
     Track.encode (without (Note.oid unclosed_note) unclosed_track) = Ok out).
Proof.
  assert (Hloop : Track.loop unclosed_track Track.start_state
                    (Track.track unclosed_track) = Ok unclosed_state)
    by (vm_compute; reflexivity).
  assert (Hn : sounding (Track.durations unclosed_state) 62 0 unclosed_note)
    by (exists [unclosed_note]; split; reflexivity).
  split; [exact Hloop | split; [exact Hn |]].
  exact (C9_unclosed_note_is_dropped unclosed_track unclosed_state 62 0
           unclosed_note Hloop Hn).
Defined.

(** * Further properties *)

(** ** The note a note-on builds *)

(** X1: the pitch of a note is a name of [_PITCHES], and with the octave it
    gives the note number back: twelve times the octave plus one, plus the
    position of the name. *)
Theorem note_number_round_trip (ident : nat) (msg : Message)
    (start duration : Z) (disable_vel : bool) (n : Note.t) :
  Note.init ident msg start duration disable_vel = Ok n ->
  exists i : nat,
    (i < 12)%nat /\
    Note._PITCHES !! i = Some (Note.pitch n) /\
    Note.note_value n = msg_note msg /\
    msg_note msg = 12 * (Note.octave n + 1) + Z.of_nat i.
Proof.
  unfold Note.init. intros (v & _ & [= <-])%bind_Ok. simpl.
  pose proof (Z.mod_pos_bound (msg_note msg) 12 ltac:(lia)) as Hmod.
  exists (Z.to_nat (msg_note msg mod 12)).
  split; [lia | split; [| split; [reflexivity |]]].
  - destruct (nth_lookup_or_length Note._PITCHES
                (Z.to_nat (msg_note msg mod 12)) "") as [-> | Hlen];
      [reflexivity | simpl in Hlen; lia].
  - pose proof (Z.div_mod (msg_note msg) 12 ltac:(lia)). lia.
Qed.

Lemma note_number_round_trip_witness :
  Note.init 7 (message note_on 61 100 0) 16 0 true
    = Ok {| Note.oid := 7; Note.note_value := 61; Note.pitch := "C#";
            Note.octave := 4; Note.start := 16; Note.duration := 0;
            Note.velocity := 12 |} /\
  exists i : nat,
    (i < 12)%nat /\
    Note._PITCHES !! i = Some "C#" /\
    61 = 61 /\
    61 = 12 * (4 + 1) + Z.of_nat i.
Proof.
  split; [reflexivity |].
  exact (note_number_round_trip 7 (message note_on 61 100 0) 16 0 true _
           eq_refl).
Defined.

(** X2: a MIDI velocity from 0 to 127 scales to a bucket from 0 to 16; the
    bucket is 12, which prints no prefix, from velocity 92 to 100, and 16
    from velocity 124 up. *)
Theorem velocity_buckets (v : Z) :
  0 <= v <= 127 ->
  exists b,
    Note.scale_velocity v = Ok b /\
    0 <= b <= 16 /\
    (b = 12 <-> 92 <= v <= 100) /\
    (b = 16 <-> 124 <= v).
Proof.
  intros Hv.
  set (check := fun v =>
         match Note.scale_velocity v with
         | Ok b =>
             (0 <=? b) && (b <=? 16)
             && Bool.eqb (b =? 12) ((92 <=? v) && (v <=? 100))
             && Bool.eqb (b =? 16) (124 <=? v)
         | Raise _ => false
         end).
  assert (Hall : forallb check (Z.of_nat <$> seq 0 128) = true)
    by (vm_compute; reflexivity).
  rewrite forallb_forall in Hall.
  assert (Hcheck : check v = true).
  { apply Hall. apply list_elem_of_In, list_elem_of_fmap.
    exists (Z.to_nat v). split; [lia |]. apply elem_of_seq. lia. }
  unfold check in Hcheck.
  destruct (Note.scale_velocity v) as [b | e]; [| discriminate].
  exists b. split; [reflexivity |].
  apply andb_prop in Hcheck as [Hcheck H16].
  apply andb_prop in Hcheck as [Hcheck H12].
  apply andb_prop in Hcheck as [Hlo Hhi].
  apply eqb_prop in H12, H16.
  split; [lia | split].
  - destruct (Z.eqb_spec b 12); symmetry in H12.
    + apply andb_prop in H12. lia.
    + apply andb_false_iff in H12. lia.
  - destruct (Z.eqb_spec b 16); lia.
Qed.

Lemma velocity_buckets_witness :
  0 <= 127 <= 127 /\
  exists b,
    Note.scale_velocity 127 = Ok b /\
    0 <= b <= 16 /\
    (b = 12 <-> 92 <= 127 <= 100) /\
    (b = 16 <-> 124 <= 127).
Proof.
  split; [lia | apply (velocity_buckets 127); lia].
Defined.

(** ** The shape of the length token *)

Lemma append_nonempty (s1 s2 : string) (c : ascii) :
  s1 +:+ String c s2 <> "".
Proof. destruct s1; discriminate. Qed.

(** X3: the decomposition never returns the empty string: a token of the
    table is returned as it stands only when it is not the blank one. *)
Theorem length_token_never_blank (pitch : string) (duration : Z) (s : string) :
  Note._get_length_str pitch duration = Ok s -> s <> "".
Proof.
  rewrite _get_length_str_body.
  destruct (duration <? 1); [discriminate |].
  destruct (Note.get Note.d duration) as [[| c token] |] eqn:Hget; simpl.
  - destruct (Note.find_low duration) as [low |]; [| discriminate].
    intros (head & _ & (tail & _ & [= <-])%bind_Ok)%bind_Ok.
    apply append_nonempty.
  - intros [= <-]. discriminate.
  - destruct (Note.find_low duration) as [low |]; [| discriminate].
    intros (head & _ & (tail & _ & [= <-])%bind_Ok)%bind_Ok.
    apply append_nonempty.
Qed.

Lemma length_token_never_blank_witness :
  Note._get_length_str "C" 4 = Ok "8.&C16" /\ "8.&C16" <> "".
Proof.
  split; [reflexivity |].
  exact (length_token_never_blank "C" 4 "8.&C16" eq_refl).
Defined.

(** The string returned is the tie chain of [key_chain]. *)
Lemma _get_length_str_chain (pitch : string) (duration : Z) :
  1 <= duration ->
  Note._get_length_str pitch duration
    = Ok (tie_chain pitch (key_chain duration)) /\
  key_chain duration <> [].
Proof.
  intros Hge. assert (Hnn : 0 <= duration) by lia.
  revert Hge. pattern duration. apply Z_lt_induction; [| exact Hnn].
  clear duration Hnn. intros duration IH Hge.
  rewrite _get_length_str_body, key_chain_body.
  destruct (Z.ltb_spec duration 1); [lia |].
  destruct (Note.truthy (Note.get Note.d duration)) eqn:Htruthy; [done |].
  destruct (find_low_spec duration Hge Htruthy) as (low & -> & Hlow & _ & ->).
  destruct (IH (duration - low) ltac:(lia) ltac:(lia)) as [-> Hne].
  split; [| discriminate].
  destruct (key_chain (duration - low)); [congruence | reflexivity].
Qed.

(** Past the longest token the decomposition peels one dotted whole note. *)
Lemma key_chain_long (duration : Z) :
  24 < duration -> key_chain duration = 24 :: key_chain (duration - 24).
Proof.
  intros Hlong. rewrite key_chain_body.
  destruct (Z.ltb_spec duration 1); [lia |].
  assert (Hget : Note.get Note.d duration = None).
  { cbv [Note.d Note.get].
    repeat match goal with
           | |- context [if ?k =? duration then _ else _] =>
               destruct (Z.eqb_spec k duration); [lia |]
           end.
    reflexivity. }
  rewrite Hget. simpl.
  unfold Note.find_low. simpl.
  destruct (Z.ltb_spec 24 duration); [reflexivity | lia].
Qed.

Lemma key_chain_short (duration : Z) :
  1 <= duration <= 24 -> chain_shape duration (key_chain duration).
Proof.
  intros Hd.
  assert (Hcases : In duration (Z.of_nat <$> seq 1 24)).
  { apply list_elem_of_In, list_elem_of_fmap. exists (Z.to_nat duration).
    split; [lia |]. apply elem_of_seq. lia. }
  simpl in Hcases.
  repeat (destruct Hcases as [<- | Hcases];
          [split; vm_compute;
           [repeat constructor; discriminate | reflexivity
           | discriminate | discriminate] |]).
  destruct Hcases.
Qed.

(** X4: the keys the decomposition settles on lie between 1 and 24, never
    rise along the chain, number at most the dotted whole notes in the
    duration plus three, and the last of them is not the blank quarter. *)
Theorem tie_chain_shape (pitch : string) (duration : Z) :
  1 <= duration ->
  Note._get_length_str pitch duration
    = Ok (tie_chain pitch (key_chain duration)) /\
  chain_shape duration (key_chain duration).
Proof.
  intros Hge. split; [by apply _get_length_str_chain |].
  assert (Hnn : 0 <= duration) by lia.
  revert Hge. pattern duration. apply Z_lt_induction; [| exact Hnn].
  clear duration Hnn. intros duration IH Hge.
  destruct (Z.le_gt_cases duration 24) as [Hshort | Hlong];
    [by apply key_chain_short |].
  rewrite key_chain_long by lia.
  destruct (IH (duration - 24) ltac:(lia) ltac:(lia))
    as [Hkeys Hsorted Hlength Hlast].
  assert (Hdiv : duration / 24 = (duration - 24) / 24 + 1).
  { replace duration with ((duration - 24) + 1 * 24) at 1 by lia.
    rewrite Z.div_add by lia. reflexivity. }
  split.
  - constructor; [lia | exact Hkeys].
  - destruct (key_chain (duration - 24)) as [| key keys]; [reflexivity |].
    apply Forall_cons in Hkeys as [Hkey _].
    change (descending (24 :: key :: keys))
      with ((key <=? 24) && descending (key :: keys)).
    rewrite Hsorted. destruct (Z.leb_spec key 24); [reflexivity | lia].
  - simpl length. lia.
  - destruct (key_chain (duration - 24)) as [| key keys] eqn:E.
    + destruct (_get_length_str_chain "" (duration - 24) ltac:(lia)) as [_ Hne].
      congruence.
    + exact Hlast.
Qed.

Lemma tie_chain_shape_witness :
  1 <= 47 /\
  Note._get_length_str "C" 47 = Ok (tie_chain "C" (key_chain 47)) /\
  chain_shape 47 (key_chain 47).
Proof. split; [lia | apply (tie_chain_shape "C" 47); lia]. Defined.

(** ** The line allocator *)

Lemma rfind_last {A : Type} (p : A -> bool) (l : list A) (i j : nat) (x : A) :
  Track.rfind p l = Some i -> (i < j)%nat -> l !! j = Some x -> p x = false.
Proof.
  revert i j. induction l as [| y l IH]; intros i j; [discriminate |].
  simpl. destruct (Track.rfind p l) as [i' |] eqn:Hfind.
  - intros [= <-] Hlt Hj. destruct j as [| j]; [lia |].
    apply (IH i' j eq_refl); [lia | exact Hj].
  - destruct (p y); [| discriminate]. intros [= <-] Hlt Hj.
    destruct j as [| j]; [lia |]. simpl in Hj.
    clear IH Hlt. revert j Hj Hfind.
    induction l as [| z l IH]; intros j Hj; [discriminate |].
    simpl. destruct (Track.rfind p l) eqn:E; [discriminate |].
    destruct (p z) eqn:Hz; [discriminate |]. intros _.
    destruct j as [| j]; [by injection Hj as <- | by apply (IH j)].
Qed.

Lemma rfind_None {A : Type} (p : A -> bool) (l : list A) (x : A) :
  Track.rfind p l = None -> x ∈ l -> p x = false.
Proof.
  induction l as [| y l IH]; [by intros _ ?%elem_of_nil |].
  simpl. destruct (Track.rfind p l); [discriminate |].
  destruct (p y) eqn:Hy; [discriminate |].
  intros _ [-> | Hin]%elem_of_cons; [exact Hy | by apply IH].
Qed.

(** X5: [_get_available_line] hands back the most recent line that has
    ended when the note starts, and leaves the list as it is; when every
    line is still busy then, it adds one fresh line behind them and hands
    that back. *)
Theorem most_recent_available_line (lines : list Line.t) (note : Note.t)
    (lines' : list Line.t) (i : nat) :
  Track._get_available_line lines note = (lines', i) ->
  (lines' = lines /\
   (exists line, lines !! i = Some line /\
                 Line.end_ line <= Note.start note) /\
   (forall j line, (i < j)%nat -> lines !! j = Some line ->
                   Note.start note < Line.end_ line)) \/
  (lines' = lines ++ [Line.init (Note.start note)] /\
   i = length lines /\
   (forall line, line ∈ lines -> Note.start note < Line.end_ line)).
Proof.
  unfold Track._get_available_line.
  destruct (Track.rfind _ lines) as [k |] eqn:Hfind.
  - intros [= <- <-]. left. split; [reflexivity | split].
    + destruct (rfind_Some _ _ _ Hfind) as (line & Hline & Hfree).
      exists line. split; [exact Hline | lia].
    + intros j line Hlt Hj.
      pose proof (rfind_last _ _ _ _ _ Hfind Hlt Hj) as Hbusy.
      simpl in Hbusy. lia.
  - intros [= <- <-]. right. split; [reflexivity | split; [reflexivity |]].
    intros line Hin. pose proof (rfind_None _ _ _ Hfind Hin) as Hbusy.
    simpl in Hbusy. lia.
Qed.

Lemma most_recent_available_line_witness :
  Track._get_available_line
    [scenario_B_line; backwards_line; scenario_B_line] scenario_A_note
    = ([scenario_B_line; backwards_line; scenario_B_line], 1%nat) /\
  (([scenario_B_line; backwards_line; scenario_B_line]
    = [scenario_B_line; backwards_line; scenario_B_line] /\
    (exists line,
        [scenario_B_line; backwards_line; scenario_B_line] !! 1%nat = Some line /\
        Line.end_ line <= Note.start scenario_A_note) /\
    (forall j line, (1 < j)%nat ->
        [scenario_B_line; backwards_line; scenario_B_line] !! j = Some line ->
        Note.start scenario_A_note < Line.end_ line)) \/
   ([scenario_B_line; backwards_line; scenario_B_line]
    = [scenario_B_line; backwards_line; scenario_B_line]
      ++ [Line.init (Note.start scenario_A_note)] /\
    1%nat = length [scenario_B_line; backwards_line; scenario_B_line] /\
    (forall line,
        line ∈ [scenario_B_line; backwards_line; scenario_B_line] ->
        Note.start scenario_A_note < Line.end_ line))).
Proof.
  split; [reflexivity |].
  exact (most_recent_available_line
           [scenario_B_line; backwards_line; scenario_B_line] scenario_A_note
           [scenario_B_line; backwards_line; scenario_B_line] 1 eq_refl).
Defined.

(** ** The errors of a run *)

(** Each of the five errors is met by some run. *)
Example each_error_runs :
  Track.encode stray_track = Raise KeyError /\
  Midi.encode stray_score = Raise IndexError /\
  main {| merged_tracks := merged_tracks scenario_A; ticks_per_beat := 0 |}
    None false None = Raise ZeroDivisionError /\
  main {| merged_tracks := merged_tracks scenario_A;
          ticks_per_beat := 2 ^ 1024 |} None false None
    = Raise OverflowError /\
  main scenario_A None false (Some nan) = Raise ValueError.
Proof. vm_compute. repeat split. Qed.


Lemma float_of_int_Raise (n : Z) (e : exn) :
  float_of_int n = Raise e -> e = OverflowError.
Proof.
  unfold float_of_int. destruct (PrimFloat.is_infinity _); [| discriminate].
  by intros [= <-].
Qed.

Lemma round_Raise (x : float) (e : exn) :
  round x = Raise e -> e = ValueError \/ e = OverflowError.
Proof.
  unfold round. destruct (Prim2SF x); intros [= <-]; auto.
Qed.






Lemma run_lines_ok (self : Track.t) (msgs : list Message)
    (st : Track.state) :
  Track.loop self Track.start_state msgs = Ok st ->
  Forall line_ok (Track.lines st).
Proof.
  apply (loop_lines_ok self msgs Track.start_state st). apply Forall_nil_2.
Qed.





(** ** The quantizer at its edges *)

(** X7: a delta of zero ticks quantizes to zero sixteenths whatever the
    resolution; the conversion fails only on a resolution of zero or one
    that is not a number. *)
Theorem zero_ticks (self : Track.t) :
  Track._tick_to_sixteenth self 0 =
  match Prim2SF (Track.tpb self) with
  | S754_zero _ => Raise ZeroDivisionError
  | S754_nan => Raise ValueError
  | S754_infinity _ | S754_finite _ _ _ => Ok 0
  end.
Proof.
  unfold Track._tick_to_sixteenth.
  change (float_of_int 0) with (Ok 0%float). rewrite bind_Ok_l.
  unfold truediv. rewrite FloatAxioms.eqb_spec.
  change (Prim2SF 0) with (S754_zero false).
  destruct (Prim2SF (Track.tpb self)) as [[] | [] | | [] m e] eqn:Htpb;
    try reflexivity;
    (match goal with
     | |- context [SFeqb ?x ?y] => change (SFeqb x y) with false
     end;
     cbv beta iota; rewrite bind_Ok_l; unfold round;
     rewrite mul_spec, div_spec, Htpb; reflexivity).
Qed.

(** X8: the quantizer divides by zero exactly when the resolution is a
    zero of either sign and the ticks convert to a float. *)
Theorem zero_resolution (self : Track.t) (ticks : Z) :
  Track._tick_to_sixteenth self ticks = Raise ZeroDivisionError <->
  (exists s, Prim2SF (Track.tpb self) = S754_zero s) /\
  exists x, float_of_int ticks = Ok x.
Proof.
  unfold Track._tick_to_sixteenth, truediv.
  rewrite FloatAxioms.eqb_spec. change (Prim2SF 0) with (S754_zero false).
  destruct (float_of_int ticks) as [x | e] eqn:Hx.
  - rewrite bind_Ok_l.
    destruct (Prim2SF (Track.tpb self)) as [[] | [] | | [] m e] eqn:Htpb;
      try (split; [intros _; eauto | reflexivity]);
      (match goal with
       | |- context [SFeqb ?x ?y] => change (SFeqb x y) with false
       end;
       cbv beta iota; rewrite bind_Ok_l; split;
       [intros [? | ?]%round_Raise; discriminate
       | intros [[? [=]] _]]).
  - apply float_of_int_Raise in Hx as ->.
    split; [discriminate | intros [_ [? [=]]]].
Qed.

(** ** What the state remembers *)

Lemma cursor_after_snoc (self : Track.t) (msgs : list Message)
    (msg : Message) (p : nat) (t : Z) :
  (p < length msgs)%nat ->
  cursor_after self msgs p t -> cursor_after self (msgs ++ [msg]) p t.
Proof.
  intros Hp (st & Hloop & Ht). exists st. split; [| exact Ht].
  rewrite take_app_le by lia. exact Hloop.
Qed.

Lemma cursor_after_last (self : Track.t) (msgs : list Message)
    (msg : Message) (st : Track.state) :
  Track.loop self Track.start_state (msgs ++ [msg]) = Ok st ->
  cursor_after self (msgs ++ [msg]) (length msgs) (Track.time st).
Proof.
  intros Hloop. exists st. split; [| reflexivity].
  rewrite take_ge by (rewrite length_app; simpl; lia). exact Hloop.
Qed.

Lemma Note_init_grow (ident : nat) (msg : Message) (start duration : Z)
    (disable_vel : bool) (n : Note.t) (delta : Z) :
  Note.init ident msg start duration disable_vel = Ok n ->
  Note.init ident msg start (duration + delta) disable_vel
    = Ok (Note.grow delta n).
Proof.
  unfold Note.init. intros (v & -> & [= <-])%bind_Ok. reflexivity.
Qed.

Lemma opened_grow (self : Track.t) (msgs : list Message) (msg : Message)
    (n : Note.t) (delta : Z) :
  opened self msgs n -> opened self (msgs ++ [msg]) (Note.grow delta n).
Proof.
  intros [(msg0 & Hmsg0 & Hon & Hinit) Hat].
  pose proof (lookup_lt_Some _ _ _ Hmsg0) as Hlt.
  split; simpl.
  - exists msg0. split; [by apply lookup_app_l_Some |].
    split; [exact Hon | by apply Note_init_grow].
  - by apply cursor_after_snoc.
Qed.

Lemma opened_snoc (self : Track.t) (msgs : list Message) (msg : Message)
    (n : Note.t) :
  opened self msgs n -> opened self (msgs ++ [msg]) n.
Proof.
  intros [(msg0 & Hmsg0 & Hon & Hinit) Hat].
  pose proof (lookup_lt_Some _ _ _ Hmsg0) as Hlt.
  split.
  - exists msg0. split; [by apply lookup_app_l_Some | done].
  - by apply cursor_after_snoc.
Qed.

Lemma closed_snoc (self : Track.t) (msgs : list Message) (msg : Message)
    (n : Note.t) :
  closed self msgs n -> closed self (msgs ++ [msg]) n.
Proof.
  intros (q & msg0 & Hlt & Hmsg0 & Hoff & Hnote & Hat).
  pose proof (lookup_lt_Some _ _ _ Hmsg0) as Hq.
  exists q, msg0. split; [exact Hlt |].
  split; [by apply lookup_app_l_Some |].
  split; [exact Hoff |]. split; [exact Hnote |].
  by apply cursor_after_snoc.
Qed.

(** The notes that grew keep their history. *)
Lemma history_grown (self : Track.t) (msgs : list Message) (msg : Message)
    (st : Track.state) (delta : Z) (k : Z) (i : nat) (n : Note.t) :
  history self msgs st ->
  sounding (grown delta (Track.durations st)) k i n ->
  opened self (msgs ++ [msg]) n /\ Note.note_value n = k /\
  Note.end_ n = Track.time st + delta /\ (Note.oid n < length msgs)%nat.
Proof.
  intros Hist (n0 & Hn0 & ->)%sounding_grown.
  destruct (history_sounding _ _ _ Hist _ _ _ Hn0) as (Hopen & Hkey & Hend).
  split; [by apply opened_grow |]. split; [exact Hkey |].
  split; [unfold Note.end_ in *; simpl; lia |].
  destruct Hopen as [(msg0 & Hmsg0 & _) _]. simpl.
  by apply lookup_lt_Some in Hmsg0.
Qed.

Lemma order_grown (self : Track.t) (msgs : list Message)
    (st : Track.state) (delta : Z) (k : Z) (i j : nat) (n m : Note.t) :
  history self msgs st ->
  sounding (grown delta (Track.durations st)) k i n ->
  sounding (grown delta (Track.durations st)) k j m ->
  (i < j)%nat -> (Note.oid n < Note.oid m)%nat.
Proof.
  intros Hist (n0 & Hn0 & ->)%sounding_grown (m0 & Hm0 & ->)%sounding_grown.
  simpl. by apply (history_order _ _ _ Hist k i j).
Qed.

Lemma sounding_height (durations : gmap Z (list Note.t)) (k : Z) (i : nat)
    (n : Note.t) :
  sounding durations k i n -> (i < length (default [] (durations !! k)))%nat.
Proof.
  intros (stack & -> & Hn). simpl. by apply lookup_lt_Some in Hn.
Qed.

Lemma turn_history (self : Track.t) (msgs : list Message) (msg : Message)
    (st st' : Track.state) :
  Track.loop self Track.start_state (msgs ++ [msg]) = Ok st' ->
  Track.step self st msg = Ok st' ->
  history self msgs st -> history self (msgs ++ [msg]) st'.
Proof.
  intros Hloop (delta & Hdelta & Htime & Hseen & Hturn)%step_Ok Hist.
  pose proof (history_grown self msgs msg st delta) as Hgrown.
  pose proof (order_grown self msgs st delta) as Horder.
  assert (Hlen : Track.seen st' = length (msgs ++ [msg])).
  { rewrite Hseen, (history_seen _ _ _ Hist), length_app. simpl. lia. }
  assert (Hold : forall n, placed (Track.lines st) n ->
            opened self (msgs ++ [msg]) n /\ closed self (msgs ++ [msg]) n).
  { intros n [Hopen Hclosed]%(history_placed _ _ _ Hist).
    split; [by apply opened_snoc | by apply closed_snoc]. }
  destruct Hturn as [Hother Hdur Hlines
                    | note Hon Hinit Hdur Hlines
                    | stack note lines pos Hoff Hstack Hdur Hline Hlines].
  - split; [exact Hlen | | |]; rewrite ?Hdur, ?Hlines, ?Htime.
    + intros k i n Hn. destruct (Hgrown k i n Hist Hn) as (? & ? & ? & _).
      done.
    + intros k i j n m. by apply Horder.
    + exact Hold.
  - destruct (Note_init_Ok _ _ _ _ _ _ Hinit)
      as (Hoid & Hstart & Hduration & Hvalue).
    rewrite (history_seen _ _ _ Hist) in Hoid.
    split; [exact Hlen | | |]; rewrite ?Hdur, ?Hlines.
    + intros k i n [Hn | (-> & _ & ->)]%sounding_push.
      * destruct (Hgrown k i n Hist Hn) as (? & ? & ? & _).
        rewrite Htime. done.
      * split; [| split; [exact Hvalue |
                          unfold Note.end_; rewrite Hstart, Hduration; lia]].
        split.
        -- exists msg. rewrite Hoid.
           split; [by apply list_lookup_middle |]. split; [exact Hon |].
           rewrite Hstart, Hduration, <- (history_seen _ _ _ Hist).
           exact Hinit.
        -- rewrite Hoid, Hstart. by apply cursor_after_last.
    + intros k i j n m [Hn | (-> & -> & ->)]%sounding_push
                       [Hm | (Hk & -> & ->)]%sounding_push Hij.
      * by apply (Horder k i j).
      * destruct (Hgrown k i n Hist Hn) as (_ & _ & _ & Hlt). lia.
      * apply sounding_height in Hm. lia.
      * lia.
    + exact Hold.
  - split; [exact Hlen | | |]; rewrite ?Hdur, ?Hlines.
    + intros k i n [Hn _]%(sounding_pop _ _ _ _ _ _ _ Hstack).
      destruct (Hgrown k i n Hist Hn) as (? & ? & ? & _).
      rewrite Htime. done.
    + intros k i j n m [Hn _]%(sounding_pop _ _ _ _ _ _ _ Hstack)
                       [Hm _]%(sounding_pop _ _ _ _ _ _ _ Hstack).
      by apply (Horder k i j).
    + intros n [Hn | ->]%(placed_put _ _ _ _ _ Hline); [by apply Hold |].
      destruct (Hgrown _ _ _ Hist (sounding_top _ _ _ _ Hstack))
        as (Hopen & Hvalue & Hend & Hlt).
      split; [exact Hopen |].
      exists (length msgs), msg. split; [exact Hlt |].
      split; [by apply list_lookup_middle |]. split; [exact Hoff |].
      split; [by symmetry |].
      rewrite Hend, <- Htime. by apply cursor_after_last.
Qed.

Lemma loop_history (self : Track.t) (msgs : list Message)
    (st : Track.state) :
  Track.loop self Track.start_state msgs = Ok st -> history self msgs st.
Proof.
  revert st. induction msgs as [| msg msgs IH] using rev_ind; intros st.
  - intros [= <-]. split; simpl.
    + reflexivity.
    + intros k i n (stack & []%lookup_empty_Some & _).
    + intros k i j n m (stack & []%lookup_empty_Some & _).
    + intros n (line & []%elem_of_nil & _).
  - intros Hloop. pose proof Hloop as Hsplit.
    rewrite loop_app in Hsplit.
    apply bind_Ok in Hsplit as (st0 & Hpre & Hlast).
    cbn [Track.loop] in Hlast.
    apply bind_Ok in Hlast as (st1 & Hstep & [= <-]).
    apply (turn_history self msgs msg st0 st1 Hloop Hstep (IH st0 Hpre)).
Qed.

(** X9: while the loop runs, each sounding note sits on the stack of its
    own number, was opened by the message of its identity and ends at the
    time cursor. *)
Theorem sounding_note_history (self : Track.t) (msgs : list Message)
    (st : Track.state) (k : Z) (i : nat) (n : Note.t) :
  Track.loop self Track.start_state msgs = Ok st ->
  sounding (Track.durations st) k i n ->
  opened self msgs n /\ Note.note_value n = k /\
  Note.end_ n = Track.time st.
Proof.
  intros Hloop%loop_history Hn. by apply (history_sounding _ _ _ Hloop k i).
Qed.

Lemma sounding_note_history_witness :
  Track.loop scenario_A_track Track.start_state nested_messages
    = Ok nested_state /\
  sounding (Track.durations nested_state) 60 0 (nested_note 0 0 2) /\
  opened scenario_A_track nested_messages (nested_note 0 0 2) /\
  Note.note_value (nested_note 0 0 2) = 60 /\
  Note.end_ (nested_note 0 0 2) = Track.time nested_state.
Proof.
  assert (Hloop : Track.loop scenario_A_track Track.start_state
                    nested_messages = Ok nested_state)
    by (vm_compute; reflexivity).
  assert (Hn : sounding (Track.durations nested_state) 60 0
                 (nested_note 0 0 2)).
  { eexists. split; [apply lookup_singleton_eq | reflexivity]. }
  split; [exact Hloop | split; [exact Hn |]].
  exact (sounding_note_history scenario_A_track nested_messages nested_state
           60 0 (nested_note 0 0 2) Hloop Hn).
Defined.

(** X10: every note of the output lines was opened by a note-on and closed
    by a later note-off of its number, and spans the cursor between them. *)
Theorem placed_note_history (self : Track.t) (st : Track.state)
    (n : Note.t) :
  Track.loop self Track.start_state (Track.track self) = Ok st ->
  placed (Track.lines st) n ->
  opened self (Track.track self) n /\ closed self (Track.track self) n.
Proof.
  intros Hloop%loop_history Hn. by apply (history_placed _ _ _ Hloop).
Qed.

Lemma placed_note_history_witness :
  Track.loop scenario_B_track Track.start_state (Track.track scenario_B_track)
    = Ok scenario_B_state /\
  placed (Track.lines scenario_B_state) (scenario_B_note 2 6) /\
  opened scenario_B_track (Track.track scenario_B_track)
    (scenario_B_note 2 6) /\
  closed scenario_B_track (Track.track scenario_B_track)
    (scenario_B_note 2 6).
Proof.
  assert (Hloop : Track.loop scenario_B_track Track.start_state
                    (Track.track scenario_B_track) = Ok scenario_B_state)
    by (vm_compute; reflexivity).
  assert (Hplaced : placed (Track.lines scenario_B_state)
                      (scenario_B_note 2 6)).
  { exists scenario_B_line. split; [apply list_elem_of_here |].
    do 2 apply list_elem_of_further. apply list_elem_of_here. }
  split; [exact Hloop | split; [exact Hplaced |]].
  exact (placed_note_history scenario_B_track scenario_B_state
           (scenario_B_note 2 6) Hloop Hplaced).
Defined.

(** X11: a note-off takes the note of its number that was opened last: no
    sounding note of that number has a later identity, and the message of
    that identity is a note-on of the same number. *)
Theorem last_in_first_out (self : Track.t) (pre : list Message)
    (st : Track.state) (msg : Message) (ident : nat) :
  Track.loop self Track.start_state pre = Ok st ->
  hands_over self st msg ident ->
  (exists msg_on,
      pre !! ident = Some msg_on /\ is_note_on msg_on /\
      msg_note msg_on = msg_note msg) /\
  forall i n,
    sounding (Track.durations st) (msg_note msg) i n ->
    (Note.oid n <= ident)%nat.
Proof.
  intros Hist%loop_history (delta & stack & note & _ & _ & Hstack & <-).
  pose proof (sounding_top _ _ _ _ Hstack) as Htop.
  apply sounding_grown in Htop as (top & Htop & ->). simpl.
  destruct (history_sounding _ _ _ Hist _ _ _ Htop)
    as ([(msg_on & Hmsg_on & Hon & Hinit) _] & Hvalue & _).
  split.
  - exists msg_on. split; [exact Hmsg_on |]. split; [exact Hon |].
    apply Note_init_Ok in Hinit as (_ & _ & _ & <-). exact Hvalue.
  - intros i n Hn.
    assert (Hi : (i < S (length stack))%nat).
    { assert (Hgrown : sounding (grown delta (Track.durations st))
                         (msg_note msg) i (Note.grow delta n))
        by (apply sounding_grown; eauto).
      apply sounding_height in Hgrown. rewrite Hstack in Hgrown.
      simpl in Hgrown. rewrite length_app in Hgrown. simpl in Hgrown. lia. }
    destruct (decide (i = length stack)) as [-> | Hne].
    + destruct Hn as (s & Hs & Hn), Htop as (s' & Hs' & Htop).
      rewrite Hs in Hs'. injection Hs' as <-.
      rewrite Hn in Htop. injection Htop as <-. lia.
    + pose proof (history_order _ _ _ Hist _ i (length stack) n top Hn Htop
                    ltac:(lia)).
      lia.
Qed.

Lemma last_in_first_out_witness :
  Track.loop scenario_A_track Track.start_state nested_messages
    = Ok nested_state /\
  hands_over scenario_A_track nested_state (message note_off 60 64 240) 1 /\
  (exists msg_on,
      nested_messages !! 1%nat = Some msg_on /\ is_note_on msg_on /\
      msg_note msg_on = msg_note (message note_off 60 64 240)) /\
  forall i n,
    sounding (Track.durations nested_state)
      (msg_note (message note_off 60 64 240)) i n ->
    (Note.oid n <= 1)%nat.
Proof.
  assert (Hloop : Track.loop scenario_A_track Track.start_state
                    nested_messages = Ok nested_state)
    by (vm_compute; reflexivity).
  assert (Hover : hands_over scenario_A_track nested_state
                    (message note_off 60 64 240) 1).
  { exists 2, [nested_note 0 0 4], (nested_note 1 2 2).
    split; [vm_compute; reflexivity |].
    split; [left; reflexivity |].
    split; [vm_compute; reflexivity | reflexivity]. }
  split; [exact Hloop | split; [exact Hover |]].
  exact (last_in_first_out scenario_A_track nested_messages nested_state
           (message note_off 60 64 240) 1 Hloop Hover).
Defined.

(** ** No note is lost *)

Lemma turn_kept (self : Track.t) (st : Track.state) (msg : Message)
    (delta : Z) (st' : Track.state) (p : nat) (k : Z) :
  turn self st msg (grown delta (Track.durations st)) st' ->
  kept st p k -> kept st' p k.
Proof.
  intros Hturn (n & Hoid & Hvalue & Hn).
  assert (Hgrown : (exists i,
             sounding (grown delta (Track.durations st)) k i
               (Note.grow delta n)) \/ placed (Track.lines st) n).
  { destruct Hn as [[i Hn] | Hn]; [left | by right].
    exists i. apply sounding_grown. eauto. }
  clear Hn.
  destruct Hturn as [_ Hdur Hlines
                    | note _ _ Hdur Hlines
                    | stack note lines pos _ Hstack Hdur Hline Hlines].
  - destruct Hgrown as [[i Hn] | Hn].
    + exists (Note.grow delta n). rewrite Hdur. eauto.
    + exists n. rewrite Hlines. eauto.
  - destruct Hgrown as [[i Hn] | Hn].
    + exists (Note.grow delta n). rewrite Hdur.
      split; [exact Hoid | split; [exact Hvalue | left]].
      exists i. apply sounding_push. by left.
    + exists n. rewrite Hlines. eauto.
  - destruct Hgrown as [[i Hn] | Hn].
    + exists (Note.grow delta n).
      split; [exact Hoid | split; [exact Hvalue |]].
      destruct (decide (k = msg_note msg /\ i = length stack))
        as [[-> ->] | Hne].
      * right. rewrite Hlines. apply (placed_put _ _ _ _ _ Hline). right.
        destruct Hn as (s & Hs & Hn). rewrite Hstack in Hs.
        injection Hs as <-. rewrite list_lookup_middle in Hn by done.
        by injection Hn.
      * left. exists i. rewrite Hdur.
        by apply (sounding_pop _ _ _ _ _ _ _ Hstack).
    + exists n. rewrite Hlines.
      split; [exact Hoid | split; [exact Hvalue | right]].
      apply (placed_put _ _ _ _ _ Hline). by left.
Qed.

(** X12: no note is lost while the loop runs: the note opened by a note-on
    with a velocity is, in every later state of the loop, on the stack of
    its number or in a line. *)
Theorem every_note_on_is_kept (self : Track.t) (msgs : list Message)
    (st : Track.state) (p : nat) (msg : Message) :
  Track.loop self Track.start_state msgs = Ok st ->
  msgs !! p = Some msg -> is_note_on msg -> kept st p (msg_note msg).
Proof.
  revert st. induction msgs as [| last msgs IH] using rev_ind; intros st;
    [done |].
  rewrite loop_app. intros (st0 & Hpre & Hlast)%bind_Ok.
  cbn [Track.loop] in Hlast.
  apply bind_Ok in Hlast as (st1 & Hstep & [= <-]).
  apply step_Ok in Hstep as (delta & _ & _ & _ & Hturn).
  intros [[_ Hp] | [-> <-]]%lookup_snoc_Some Hon.
  - apply (turn_kept _ _ _ _ _ _ _ Hturn). apply (IH st0 Hpre Hp Hon).
  - destruct Hturn as [Hother _ _
                      | note _ Hinit Hdur _
                      | stack note lines pos Hoff _ _ _ _].
    + destruct Hon as [Hon _]. congruence.
    + apply Note_init_Ok in Hinit as (Hoid & _ & _ & Hvalue).
      apply loop_seen in Hpre. simpl in Hpre. rewrite Hpre in Hoid.
      exists note. split; [exact Hoid | split; [exact Hvalue | left]].
      eexists. rewrite Hdur. apply sounding_push. right. done.
    + destruct Hon as [Hon Hvel], Hoff as [Hoff | [_ Hle]]; [congruence | lia].
Qed.

Lemma every_note_on_is_kept_witness :
  Track.loop unclosed_track Track.start_state (Track.track unclosed_track)
    = Ok unclosed_state /\
  Track.track unclosed_track !! 1%nat = Some (message note_on 62 96 0) /\
  is_note_on (message note_on 62 96 0) /\
  kept unclosed_state 1 (msg_note (message note_on 62 96 0)).
Proof.
  assert (Hloop : Track.loop unclosed_track Track.start_state
                    (Track.track unclosed_track) = Ok unclosed_state)
    by (vm_compute; reflexivity).
  assert (Hon : is_note_on (message note_on 62 96 0))
    by (split; [reflexivity | simpl; lia]).
  split; [exact Hloop | split; [reflexivity | split; [exact Hon |]]].
  exact (every_note_on_is_kept unclosed_track (Track.track unclosed_track)
           unclosed_state 1 (message note_on 62 96 0) Hloop eq_refl Hon).
Defined.

(** ** Notes and rests in the lines *)

Lemma closing_spec (msg : Message) : closing msg = true <-> is_note_off msg.
Proof.
  unfold closing, is_note_off. destruct msg as [[] note velocity ticks]; simpl.
  - destruct (Z.ltb_spec 0 velocity); split; try done.
    + intros [[=] | [_ ?]]; lia.
    + intros _. right. split; [reflexivity | lia].
  - split; [by left | done].
  - split; [done | intros [[=] | [[=] _]]].
Qed.

Lemma notes_init (start : Z) : notes (Line.init start) = [].
Proof. unfold notes, Line.init. simpl. by destruct (0 <? start). Qed.

Lemma notes_append (line : Line.t) (note : Note.t) :
  notes (Line.append line note) = notes line ++ [note].
Proof.
  unfold notes, Line.append.
  destruct (Line.end_ line <? Note.start note); simpl;
    rewrite ?omap_app; simpl; by rewrite ?app_nil_r.
Qed.

Lemma all_notes_alter (lines : list Line.t) (i : nat) (line : Line.t)
    (note : Note.t) :
  lines !! i = Some line ->
  length (all_notes (alter (fun line => Line.append line note) i lines))
    = S (length (all_notes lines)).
Proof.
  unfold all_notes. revert i.
  induction lines as [| l lines IH]; intros [| i] Hi; try done.
  - injection Hi as ->.
    change (alter ?f 0%nat (line :: lines)) with (f line :: lines).
    rewrite !fmap_cons, !concat_cons, notes_append, !length_app. simpl. lia.
  - change (alter ?f (S i) (l :: lines)) with (l :: alter f i lines).
    rewrite !fmap_cons, !concat_cons, !length_app, (IH i Hi). lia.
Qed.

Lemma all_notes_put (lines : list Line.t) (note : Note.t)
    (lines' : list Line.t) (i : nat) :
  Track._get_available_line lines note = (lines', i) ->
  length (all_notes (alter (fun line => Line.append line note) i lines'))
    = S (length (all_notes lines)).
Proof.
  intros Hline.
  destruct (_get_available_line_spec _ _ _ _ Hline)
    as [(-> & line & Hi & _) | (-> & ->)].
  - by apply (all_notes_alter _ _ line).
  - rewrite (all_notes_alter _ _ (Line.init (Note.start note)))
      by (by apply list_lookup_middle).
    unfold all_notes. rewrite fmap_app, concat_app, length_app. simpl.
    rewrite notes_init. simpl. lia.
Qed.

Lemma loop_all_notes (self : Track.t) (msgs : list Message)
    (st st' : Track.state) :
  Track.loop self st msgs = Ok st' ->
  length (all_notes (Track.lines st'))
    = (length (all_notes (Track.lines st))
       + length (List.filter closing msgs))%nat.
Proof.
  revert st. induction msgs as [| msg msgs IH]; intros st; simpl.
  - intros [= <-]. lia.
  - intros (st1 & (delta & _ & _ & _ & Hturn)%step_Ok & Hloop%IH)%bind_Ok.
    rewrite Hloop.
    destruct Hturn as [Hother _ Hlines
                      | note [Hon Hvel] _ _ Hlines
                      | stack note lines i Hoff%closing_spec _ _ Hline Hlines].
    + rewrite Hlines. unfold closing. rewrite Hother. simpl. lia.
    + rewrite Hlines. unfold closing. rewrite Hon.
      destruct (Z.ltb_spec 0 (msg_velocity msg)); [simpl; lia | lia].
    + rewrite Hoff, Hlines, (all_notes_put _ _ _ _ Hline). simpl. lia.
Qed.

Lemma rests_lead_append (line : Line.t) (note : Note.t) :
  rests_lead (Line.items line) ->
  rests_lead (Line.items (Line.append line note)).
Proof.
  intros Hlead i r. unfold Line.append.
  destruct (Line.end_ line <? Note.start note); simpl.
  - rewrite <- (assoc_L (++)). simpl.
    intros [Hi | (Hi & Hr)]%lookup_app_Some.
    + destruct (Hlead i r Hi) as (n & Hn). exists n.
      by apply lookup_app_l_Some.
    + destruct (i - length (Line.items line))%nat as [| [| j]] eqn:E;
        [| done | done].
      exists note. replace (S i) with (length (Line.items line) + 1)%nat by lia.
      by rewrite lookup_app_r, Nat.add_sub_swap, Nat.sub_diag by lia.
  - intros [Hi | (Hi & Hr)]%lookup_app_Some.
    + destruct (Hlead i r Hi) as (n & Hn). exists n.
      by apply lookup_app_l_Some.
    + by destruct (i - length (Line.items line))%nat.
Qed.

Lemma rests_lead_fresh (note : Note.t) :
  rests_lead (Line.items (Line.append (Line.init (Note.start note)) note)).
Proof.
  intros i r. unfold Line.append, Line.init, Line.end_. simpl.
  rewrite Z.add_0_r, Z.ltb_irrefl. simpl.
  destruct (0 <? Note.start note); simpl.
  - destruct i as [| [| i]]; [| done | done]. intros _. by exists note.
  - by destruct i.
Qed.

Lemma loop_rests_lead (self : Track.t) (msgs : list Message)
    (st st' : Track.state) :
  Forall (fun line => rests_lead (Line.items line)) (Track.lines st) ->
  Track.loop self st msgs = Ok st' ->
  Forall (fun line => rests_lead (Line.items line)) (Track.lines st').
Proof.
  apply (loop_invariant
           (fun st => Forall (fun line => rests_lead (Line.items line))
                        (Track.lines st))).
  intros st0 msg st1 _ Hall (delta & _ & _ & _ & Hturn)%step_Ok.
  destruct Hturn as [_ _ -> | note _ _ _ -> | stack note lines i _ _ _ Hline ->];
    [exact Hall | exact Hall |].
  rewrite Forall_forall in Hall. apply Forall_forall.
  intros line' [Hold | [(line & Hin & ->) | ->]]%(lines_after_put _ _ _ _ _ Hline).
  - by apply Hall.
  - by apply rests_lead_append, Hall.
  - apply rests_lead_fresh.
Qed.

Lemma run_rests_lead (self : Track.t) (msgs : list Message)
    (st : Track.state) :
  Track.loop self Track.start_state msgs = Ok st ->
  Forall (fun line => rests_lead (Line.items line)) (Track.lines st).
Proof.
  apply (loop_rests_lead self msgs Track.start_state st). apply Forall_nil_2.
Qed.

Lemma length_all_notes (lines : list Line.t) :
  Forall (fun line => notes line <> []) lines ->
  (length lines <= length (all_notes lines))%nat.
Proof.
  unfold all_notes. induction 1 as [| line lines Hline _ IH]; [simpl; lia |].
  rewrite fmap_cons, concat_cons, length_app.
  destruct (notes line); [done | simpl in *; lia].
Qed.

Lemma line_ok_notes (line : Line.t) :
  line_ok line -> rests_lead (Line.items line) -> notes line <> [].
Proof.
  intros [Hne _ _] Hlead. unfold notes.
  destruct (Line.items line) as [| [n | r] items]; [done | done |].
  destruct (Hlead 0%nat r eq_refl) as (n & Hn).
  destruct items as [| x items]; [done |]. injection Hn as ->. done.
Qed.

(** X13: the output lines hold exactly one note for each message handled as
    a note-off, and there are no more lines than such messages. *)
Theorem one_note_per_note_off (self : Track.t) (st : Track.state) :
  Track.loop self Track.start_state (Track.track self) = Ok st ->
  length (all_notes (Track.lines st))
    = length (List.filter closing (Track.track self)) /\
  (length (Track.lines st)
     <= length (List.filter closing (Track.track self)))%nat.
Proof.
  intros Hloop.
  pose proof (loop_all_notes _ _ _ _ Hloop) as Hcount. simpl in Hcount.
  split; [exact Hcount |]. rewrite <- Hcount.
  apply length_all_notes.
  pose proof (run_lines_ok _ _ _ Hloop) as Hok.
  pose proof (run_rests_lead _ _ _ Hloop) as Hlead.
  rewrite Forall_forall in Hok, Hlead. apply Forall_forall.
  intros line Hline. apply line_ok_notes; [by apply Hok | by apply Hlead].
Qed.

Lemma one_note_per_note_off_witness :
  Track.loop unclosed_track Track.start_state (Track.track unclosed_track)
    = Ok unclosed_state /\
  length (all_notes (Track.lines unclosed_state))
    = length (List.filter closing (Track.track unclosed_track)) /\
  (length (Track.lines unclosed_state)
     <= length (List.filter closing (Track.track unclosed_track)))%nat.
Proof.
  assert (Hloop : Track.loop unclosed_track Track.start_state
                    (Track.track unclosed_track) = Ok unclosed_state)
    by (vm_compute; reflexivity).
  split; [exact Hloop |].
  exact (one_note_per_note_off unclosed_track unclosed_state Hloop).
Defined.

(** X14: in every line of the loop each rest stands directly before a note
    that starts where the rest ends: no two rests follow one another and
    no line ends in a rest. *)
Theorem rests_precede_notes (self : Track.t) (st : Track.state)
    (line : Line.t) (i : nat) (r : Rest.t) :
  Track.loop self Track.start_state (Track.track self) = Ok st ->
  line ∈ Track.lines st ->
  Line.items line !! i = Some (ARest r) ->
  exists n,
    Line.items line !! S i = Some (ANote n) /\ Note.start n = Rest.end_ r.
Proof.
  intros Hloop Hline Hr.
  pose proof (run_lines_ok _ _ _ Hloop) as Hok.
  pose proof (run_rests_lead _ _ _ Hloop) as Hlead.
  rewrite Forall_forall in Hok, Hlead.
  destruct (Hlead line Hline i r Hr) as (n & Hn).
  exists n. split; [exact Hn |].
  destruct (Hok line Hline) as [_ Hcont _].
  apply (contiguous_next _ _ _ _ _ _ Hcont Hr Hn).
Qed.

Lemma rests_precede_notes_witness :
  Track.loop scenario_B_track Track.start_state (Track.track scenario_B_track)
    = Ok scenario_B_state /\
  scenario_B_line ∈ Track.lines scenario_B_state /\
  Line.items scenario_B_line !! 1%nat = Some (ARest (Rest.init 2 4)) /\
  exists n,
    Line.items scenario_B_line !! 2%nat = Some (ANote n) /\
    Note.start n = Rest.end_ (Rest.init 2 4).
Proof.
  assert (Hloop : Track.loop scenario_B_track Track.start_state
                    (Track.track scenario_B_track) = Ok scenario_B_state)
    by (vm_compute; reflexivity).
  assert (Hline : scenario_B_line ∈ Track.lines scenario_B_state)
    by apply list_elem_of_here.
  split; [exact Hloop | split; [exact Hline | split; [reflexivity |]]].
  exact (rests_precede_notes scenario_B_track scenario_B_state
           scenario_B_line 1 (Rest.init 2 4) Hloop Hline eq_refl).
Defined.

(** ** Velocities disabled *)

Lemma step_same_but_velocity (self : Track.t) (st : Track.state)
    (a b : Message) :
  Track._disable_vel self = true -> same_but_velocity a b ->
  Track.step self st a = Track.step self st b.
Proof.
  intros Hdv (Htype & Hnote & Htime & Hvel).
  unfold Track.step, Note.init.
  rewrite Htype in Hvel. rewrite Hdv, Htype, Hnote, Htime.
  destruct (msg_type_of b);
    [rewrite Hvel by reflexivity; reflexivity | reflexivity | reflexivity].
Qed.

Lemma loop_same_but_velocity (self : Track.t) (msgs msgs' : list Message) :
  Track._disable_vel self = true ->
  Forall2 same_but_velocity msgs msgs' ->
  forall st, Track.loop self st msgs = Track.loop self st msgs'.
Proof.
  intros Hdv. induction 1 as [| a b msgs msgs' Hab _ IH]; intros st;
    [reflexivity |].
  simpl. rewrite (step_same_but_velocity self st a b Hdv Hab).
  destruct (Track.step self st b) as [st' | e]; [apply IH | reflexivity].
Qed.

Lemma loop_self (a b : Track.t) (msgs : list Message) :
  Track.tpb a = Track.tpb b ->
  Track._disable_vel a = Track._disable_vel b ->
  forall st, Track.loop a st msgs = Track.loop b st msgs.
Proof.
  intros Htpb Hdv. induction msgs as [| msg msgs IH]; intros st;
    [reflexivity |].
  simpl. replace (Track.step a st msg) with (Track.step b st msg)
    by (unfold Track.step, Track._tick_to_sixteenth;
        rewrite Htpb, Hdv; reflexivity).
  destruct (Track.step b st msg) as [st' | e]; [apply IH | reflexivity].
Qed.

(** X15: with velocities disabled the track encodes the same whatever the
    velocities of its messages, as long as each keeps its sign. *)
Theorem velocities_disabled (a b : Track.t) :
  Track._disable_vel a = true -> Track._disable_vel b = true ->
  Track.tpb a = Track.tpb b ->
  Forall2 same_but_velocity (Track.track a) (Track.track b) ->
  Track.encode a = Track.encode b.
Proof.
  intros Ha Hb Htpb Hall. unfold Track.encode.
  rewrite (loop_same_but_velocity a _ _ Ha Hall).
  rewrite (loop_self a b) by congruence. reflexivity.
Qed.

Lemma velocities_disabled_witness :
  Track.encode
    {| Track.track := [message note_on 60 1 0; message note_off 60 0 480];
       Track.tpb := 480; Track._disable_vel := true |}
  = Track.encode
      {| Track.track := [message note_on 60 127 0; message note_off 60 64 480];
         Track.tpb := 480; Track._disable_vel := true |}.
Proof.
  apply velocities_disabled; [reflexivity | reflexivity | reflexivity |].
  constructor; [by repeat split |].
  constructor; [by repeat split | constructor].
Defined.
